(** * Pyoneer3 graphics layer: a shallow embedding of [pyoneer3/graphics.py]

    The development follows the Python module top to bottom: the coordinate
    helpers, the pixel-collision helpers, [Scene], [UIElement] and its
    subclasses [ScrollingFrame], [Option], [Text], [Image] and [Sprite].

    Conventions of the embedding.
    - Python numbers (int or float) are exact rationals [Q]; [int(...)] is
      truncation toward zero.  Values that the code only ever uses as
      integers (priorities, mouse buttons, pixel sizes of surfaces) are [Z].
    - Objects live in a store [heap] and refer to each other by reference,
      so [parent] and [children] are references, as in Python.
    - A raised exception is [Raise]; [Stuck] is not a Python outcome: it
      marks an exhausted recursion budget or a reference that is not in the
      store.
    - pygame itself (surfaces, masks, fonts, image files) is outside the
      module.  A surface is its size; the calls into pygame that a
      function makes are parameters of a section or are logged. *)

From Stdlib Require Import ZArith QArith Qminmax Lia Lqa List Permutation Sorted Ascii String.
From stdpp Require Import base gmap list strings.

Open Scope Z_scope.

(** ** Python values and outcomes *)

Inductive exn : Type :=
| AttributeError
| NameError
| TypeError
| IndexError
| AssertionError
| FileNotFoundError
| PygameError.

Inductive stuck : Type :=
| OutOfFuel
| Dangling.

Inductive result (A : Type) : Type :=
| Ok (a : A)
| Raise (e : exn)
| Stuck (s : stuck).

Arguments Ok {A} a.
Arguments Raise {A} e.
Arguments Stuck {A} s.

#[global] Instance result_ret : MRet result := fun A a => Ok a.

#[global] Instance result_bind : MBind result := fun A B k r =>
  match r with
  | Ok a => k a
  | Raise e => Raise e
  | Stuck s => Stuck s
  end.

(** [int(q)]: truncation toward zero. *)
Definition py_int (q : Q) : Z := Z.quot (Qnum q) (Zpos (Qden q)).

(** [sum(l)]: left to right, starting from [0]. *)
Definition py_sum (l : list Q) : Q := fold_left Qplus l 0%Q.

(** The values that reach [fill_color]: [None], a number, or a tuple. *)
Inductive value : Type :=
| VNone
| VInt (n : Z)
| VTuple (items : list Z).

(** Truth value of a [value], as [if v] tests it. *)
Definition truthy (v : value) : bool :=
  match v with
  | VNone => false
  | VInt n => negb (n =? 0)
  | VTuple items => negb (Nat.eqb (length items) 0)
  end.

(** ** Coordinates *)

Module XYComplex.
Record t : Type := mk { xScale : Q; xOffset : Q; yScale : Q; yOffset : Q }.
End XYComplex.

Module XYSimple.
Record t (A : Type) : Type := mk { xOffset : A; yOffset : A }.
Arguments mk {A} xOffset yOffset.
Arguments xOffset {A} t.
Arguments yOffset {A} t.
End XYSimple.

(** A pygame surface, reduced to what the module reads from it. *)
Record Surface : Type := mkSurface { get_width : Z; get_height : Z }.

(** A pygame rectangle. *)
Record Rect : Type := mkRect { left : Z; top : Z; width : Z; height : Z }.

Definition topleft (r : Rect) : Z * Z := (left r, top r).

(** [Rect.collidepoint]: the right and bottom edges are outside. *)
Definition collidepoint (r : Rect) (pos : Z * Z) : bool :=
  (left r <=? fst pos) && (fst pos <? left r + width r) &&
  (top r <=? snd pos) && (snd pos <? top r + height r).

Definition to_simple (coord : XYComplex.t) (surf : Surface) : XYSimple.t Q :=
  XYSimple.mk
    (XYComplex.xOffset coord + inject_Z (get_width surf) * XYComplex.xScale coord)%Q
    (XYComplex.yOffset coord + inject_Z (get_height surf) * XYComplex.yScale coord)%Q.


(** ** Events and handlers *)

Inductive Event : Type :=
| MOUSEBUTTONDOWN (button : Z) (pos : Z * Z)
| MOUSEMOTION (pos : Z * Z)
| OTHEREVENT (type : Z).

(** A callable stored in a handler slot: a function of the application, or
    one of the bound methods that [ScrollingFrame.__init__] installs. *)
Inductive handler : Type :=
| UserFunction (id : nat)
| Bound_scroll_handler
| Bound_menter
| Bound_mexit.

(** [self.handlers]: a dict with exactly these five keys. *)
Record Handlers : Type := mkHandlers {
  mbd : option handler;
  mover : option handler;
  menter : option handler;
  mexit : option handler;
  uevent : list handler
}.

(** One call of a handler, with the arguments it received besides [self]. *)
Inductive call : Type :=
| Call2 (f : handler) (event : Event)
| Call3 (f : handler) (event : Event) (tick : option Z).

(** ** Objects and the store *)

Definition ref : Type := nat.

Record Scene : Type := mkScene {
  scene_active : bool;
  scene_surf : option Surface;
  scene_priority : Z;
  scene_children : list ref
}.

Record UIElement : Type := mkUIElement {
  name : string;
  rel_pos : XYComplex.t;
  surf : option Surface;
  c_surf : option Surface;
  rect : option Rect;
  fill_color : value;
  priority : Z;
  visible : bool;
  active : bool;
  handlers : Handlers;
  mouse_inside : bool;
  parent : option ref;
  children : list ref
}.

(** Subclasses carry the base object and their own attributes. *)

Record ScrollingFrame : Type := mkScrollingFrame {
  sf_base : UIElement;
  window : option Surface;
  window_size : XYComplex.t;
  scroll_limits : XYSimple.t Q;
  scroll_pos : Q;
  scroll_speed : Q;
  scrollable : bool;
  mouse_over : bool;
  scroll_fill : value;
  scrollbar_surf : option Surface;
  scrollbar_padding : Z;
  scrollbar_width : Z;
  show_scrollbar : bool
}.

Record Option : Type := mkOption {
  opt_base : UIElement;
  selected : bool
}.

(** A pygame font: [size(text)] and the surface that [render(text, *args)]
    returns. *)
Record Font : Type := mkFont {
  font_size : string -> Z * Z;
  font_render : string -> list value -> Surface
}.

Record Text : Type := mkText {
  text_base : UIElement;
  anchor : Z;
  _text : string;
  font : Font;
  font_args : list value;
  text_surf : option Surface;
  wrap : bool
}.

Record Image : Type := mkImage {
  img_base : UIElement;
  image_path : string + Surface
}.

(** A pygame mask: its size and the set pixels. *)
Record Mask : Type := mkMask { mask_size : Z * Z; mask_bits : list (Z * Z) }.

Record Sprite : Type := mkSprite {
  spr_image : Image;
  spr_anchor : Z;
  rot : Q;
  has_mask : bool;
  mask : option Mask
}.

Inductive object : Type :=
| AScene (s : Scene)
| AUIElement (e : UIElement)
| AScrollingFrame (f : ScrollingFrame)
| AOption (o : Option)
| AText (t : Text)
| AImage (i : Image)
| ASprite (s : Sprite).

Abbreviation heap := (gmap ref object).

(** [isinstance(o, UIElement)], with the base object when it holds. *)
Definition as_UIElement (o : object) : option UIElement :=
  match o with
  | AScene _ => None
  | AUIElement e => Some e
  | AScrollingFrame f => Some (sf_base f)
  | AOption o => Some (opt_base o)
  | AText t => Some (text_base t)
  | AImage i => Some (img_base i)
  | ASprite s => Some (img_base (spr_image s))
  end.

(** The attributes that [Scene] and [UIElement] share. *)
Definition obj_surf (o : object) : option Surface :=
  match as_UIElement o with
  | Some e => surf e
  | None => match o with AScene s => scene_surf s | _ => None end
  end.


Definition obj_children (o : object) : list ref :=
  match as_UIElement o with
  | Some e => children e
  | None => match o with AScene s => scene_children s | _ => [] end
  end.

(** ** [UIElement.calculate_absolute_position] *)

(** The [while isinstance(current_object, UIElement)] loop: the list
    [position_chain], first entry for [self]. *)
Fixpoint position_chain (fuel : nat) (h : heap) (current_object : ref)
  : result (list (XYSimple.t Q)) :=
  match fuel with
  | O => Stuck OutOfFuel
  | S fuel' =>
      match h !! current_object with
      | None => Stuck Dangling
      | Some o =>
          match as_UIElement o with
          | None => Ok []
          | Some e =>
              match parent e with
              | None => Raise AttributeError
              | Some p =>
                  match h !! p with
                  | None => Stuck Dangling
                  | Some po =>
                      match obj_surf po with
                      | None => Raise AttributeError
                      | Some s =>
                          rest ← position_chain fuel' h p;
                          Ok (to_simple (rel_pos e) s :: rest)
                      end
                  end
              end
          end
      end
  end.

Definition calculate_absolute_position (fuel : nat) (h : heap) (self : ref)
  : result (XYSimple.t Z) :=
  chain ← position_chain fuel h self;
  match chain with
  | [] => Raise IndexError
  | _ :: _ =>
      Ok (XYSimple.mk
            (py_int (py_sum (map XYSimple.xOffset chain)))
            (py_int (py_sum (map XYSimple.yOffset chain))))
  end.

(** *** The chain of ancestors, as the specification describes it *)






(** ** Attribute assignment *)

Definition with_parent (p : option ref) (e : UIElement) : UIElement :=
  mkUIElement (name e) (rel_pos e) (surf e) (c_surf e) (rect e) (fill_color e)
    (priority e) (visible e) (active e) (handlers e) (mouse_inside e) p (children e).

Definition with_children (cs : list ref) (e : UIElement) : UIElement :=
  mkUIElement (name e) (rel_pos e) (surf e) (c_surf e) (rect e) (fill_color e)
    (priority e) (visible e) (active e) (handlers e) (mouse_inside e) (parent e) cs.

Definition with_surf (s : option Surface) (e : UIElement) : UIElement :=
  mkUIElement (name e) (rel_pos e) s (c_surf e) (rect e) (fill_color e)
    (priority e) (visible e) (active e) (handlers e) (mouse_inside e) (parent e)
    (children e).

Definition with_rect (r : option Rect) (e : UIElement) : UIElement :=
  mkUIElement (name e) (rel_pos e) (surf e) (c_surf e) r (fill_color e)
    (priority e) (visible e) (active e) (handlers e) (mouse_inside e) (parent e)
    (children e).

Definition with_mouse_inside (b : bool) (e : UIElement) : UIElement :=
  mkUIElement (name e) (rel_pos e) (surf e) (c_surf e) (rect e) (fill_color e)
    (priority e) (visible e) (active e) (handlers e) b (parent e) (children e).

Definition with_handlers (hs : Handlers) (e : UIElement) : UIElement :=
  mkUIElement (name e) (rel_pos e) (surf e) (c_surf e) (rect e) (fill_color e)
    (priority e) (visible e) (active e) hs (mouse_inside e) (parent e) (children e).

(** Assignment to attributes of the base object, whatever the class. *)
Definition map_base (f : UIElement -> UIElement) (o : object) : object :=
  match o with
  | AScene s => AScene s
  | AUIElement e => AUIElement (f e)
  | AScrollingFrame fr =>
      AScrollingFrame
        (mkScrollingFrame (f (sf_base fr)) (window fr) (window_size fr)
           (scroll_limits fr) (scroll_pos fr) (scroll_speed fr) (scrollable fr)
           (mouse_over fr) (scroll_fill fr) (scrollbar_surf fr)
           (scrollbar_padding fr) (scrollbar_width fr) (show_scrollbar fr))
  | AOption o => AOption (mkOption (f (opt_base o)) (selected o))
  | AText t =>
      AText (mkText (f (text_base t)) (anchor t) (_text t) (font t) (font_args t)
               (text_surf t) (wrap t))
  | AImage i => AImage (mkImage (f (img_base i)) (image_path i))
  | ASprite s =>
      ASprite (mkSprite (mkImage (f (img_base (spr_image s))) (image_path (spr_image s)))
                 (spr_anchor s) (rot s) (has_mask s) (mask s))
  end.

(** Assignment to [children], which [Scene] has too. *)
Definition set_children (cs : list ref) (o : object) : object :=
  match o with
  | AScene s => AScene (mkScene (scene_active s) (scene_surf s) (scene_priority s) cs)
  | _ => map_base (with_children cs) o
  end.

(** ** [UIElement.__init__], [set_parent] *)

Definition default_fill_color : value := VNone.
Definition default_render_priority : Z := 1.

Definition UIElement_init (pos : XYComplex.t) (surf : option Surface)
    (fill_color : value) (render_priority : Z) : UIElement :=
  {| name := "";
     rel_pos := pos;
     surf := surf;
     c_surf := None;
     rect := None;
     fill_color := if truthy fill_color then fill_color else VTuple [0; 0; 0];
     priority := render_priority;
     visible := true;
     active := true;
     handlers := mkHandlers None None None None [];
     mouse_inside := false;
     parent := None;
     children := [] |}.

Definition set_parent (h : heap) (self parent : ref) : result heap :=
  match h !! self with
  | None => Stuck Dangling
  | Some o =>
      match as_UIElement o with
      | None => Raise AttributeError
      | Some _ =>
          let h1 := <[self := map_base (with_parent (Some parent)) o]> h in
          match h1 !! parent with
          | None => Stuck Dangling
          | Some po =>
              Ok (<[parent := set_children (obj_children po ++ [self]) po]> h1)
          end
      end
  end.

(** ** The worked trees of the specification *)

Definition the_scene : Scene := mkScene true (Some (mkSurface 640 480)) 1 [].

(** [root(scale=0, offset=(10,10))] with a 100x100 surface under a scene,
    and [child(scale=0.5, offset=(5,5))] under [root]. *)
Definition nested_tree : heap :=
  let h : heap :=
    <[2%nat := AUIElement (UIElement_init (XYComplex.mk (1#2) 5 (1#2) 5) None VNone 1)]>
    (<[1%nat := AUIElement (UIElement_init (XYComplex.mk 0 10 0 10)
                              (Some (mkSurface 100 100)) VNone 1)]>
    (<[0%nat := AScene the_scene]> ∅)) in
  match (h1 ← set_parent h 1%nat 0%nat; set_parent h1 2%nat 1%nat) with
  | Ok h2 => h2
  | _ => h
  end.




(** ** [get_descendants]

    [Scene.get_descendants] and [UIElement.get_descendants] have the same
    body; [child.get_descendants()] dispatches on the class of the child, so
    one function on references covers both.  [fuel] bounds the depth of the
    recursion. *)
Fixpoint get_descendants (fuel : nat) (h : heap) (self : ref) : result (list ref) :=
  match fuel with
  | O => Stuck OutOfFuel
  | S fuel' =>
      match h !! self with
      | None => Stuck Dangling
      | Some o =>
          fold_left
            (fun acc child =>
               descendants ← acc;
               more ← get_descendants fuel' h child;
               Ok (descendants ++ more))
            (obj_children o)
            (Ok (obj_children o))
      end
  end.

(** *** Trees in the store, as the specification speaks of them *)

#[local] Set Warnings "-register-all".

Inductive tree : Type := Node (root : ref) (kids : list tree).

Definition root (t : tree) : ref := match t with Node r _ => r end.
Definition kids (t : tree) : list tree := match t with Node _ ks => ks end.

(** The store holds the tree [t]: each node is an object whose [children]
    are the roots of its subtrees, in order. *)
Inductive tree_at (h : heap) : tree -> Prop :=
| tree_at_node r ks o :
    h !! r = Some o ->
    obj_children o = map root ks ->
    Forall (tree_at h) ks ->
    tree_at h (Node r ks).

(** Number of levels; a node without children has depth 1. *)
Fixpoint depth (t : tree) : nat :=
  match t with
  | Node _ ks => S (fold_right Nat.max O (map depth ks))
  end.

(** Depth-first pre-order: a node, then the subtree of each child. *)
Fixpoint preorder (t : tree) : list ref :=
  match t with
  | Node r ks => r :: flat_map preorder ks
  end.

(** The subtree below [t] in pre-order, without [t] itself. *)
Definition descendants_preorder (t : tree) : list ref := flat_map preorder (kids t).

(** The order of the code: the children, then the descendants of each. *)
Fixpoint children_then_descendants (t : tree) : list ref :=
  match t with
  | Node _ ks => map root ks ++ flat_map children_then_descendants ks
  end.

(** Induction on trees, with the property on every child. *)
Section tree_induction.
Variable P : tree -> Prop.
Hypothesis step : forall r ks, Forall P ks -> P (Node r ks).

Fixpoint tree_ind_Forall (t : tree) : P t :=
  match t with
  | Node r ks =>
      step r ks
        ((fix all (l : list tree) : Forall P l :=
            match l with
            | [] => List.Forall_nil P
            | k :: l' => List.Forall_cons P k l' (tree_ind_Forall k) (all l')
            end) ks)
  end.
End tree_induction.

(** The reading of the specification: the result is the pre-order listing. *)
Definition returns_preorder (h : heap) (t : tree) : Prop :=
  exists fuel, get_descendants fuel h (root t) = Ok (descendants_preorder t).

(** A scene with two elements, the first of which has a child. *)
Definition family_tree : heap :=
  let e := AUIElement (UIElement_init (XYComplex.mk 0 0 0 0) None VNone 1) in
  let h : heap := <[3%nat := e]> (<[2%nat := e]> (<[1%nat := e]> (<[0%nat := AScene the_scene]> ∅))) in
  match (h1 ← set_parent h 1%nat 0%nat;
         h2 ← set_parent h1 2%nat 0%nat;
         set_parent h2 3%nat 1%nat) with
  | Ok h3 => h3
  | _ => h
  end.

Definition family : tree :=
  Node 0%nat [Node 1%nat [Node 3%nat []]; Node 2%nat []].

(** ** Drawing order

    [list.sort(key=...)] is Python's stable sort: the keys are computed once,
    and elements with equal keys keep their order.  It is embedded as a
    stable insertion sort on the list decorated with its keys. *)













(** *** What a stable priority order is *)





(** ** [UIElement.get_child_of_name]

    The loop variable is called [name], so it shadows the argument, and the
    body reads [child], a name that is bound neither in the method nor in the
    module: the first iteration raises [NameError]. *)
Definition get_child_of_name (h : heap) (self : ref) (name : string)
  : result (option ref) :=
  match h !! self with
  | None => Stuck Dangling
  | Some o =>
      match as_UIElement o with
      | None => Raise AttributeError
      | Some e =>
          match children e with
          | [] => Ok None
          | _ :: _ => Raise NameError
          end
      end
  end.

(** What the specification asks of a lookup: the first child of that name,
    and no value when there is none. *)
Fixpoint first_child_named (h : heap) (cs : list ref) (wanted : string) : option ref :=
  match cs with
  | [] => None
  | c :: cs' =>
      match h !! c with
      | Some o =>
          match as_UIElement o with
          | Some e =>
              if String.eqb (name e) wanted then Some c
              else first_child_named h cs' wanted
          | None => first_child_named h cs' wanted
          end
      | None => first_child_named h cs' wanted
      end
  end.

(** ** [UIElement.handle_event] *)

(** [if slot: slot(self, event)]. *)
Definition fire (slot : option handler) (event : Event) : list call :=
  match slot with
  | Some f => [Call2 f event]
  | None => []
  end.

(** The element after the call, and the handlers called, in order. *)
Definition handle_event (e : UIElement) (event : Event) (tick : option Z)
  : result (UIElement * list call) :=
  if negb (active e) then Ok (e, [])
  else
    '(e', calls) ←
      match event with
      | MOUSEBUTTONDOWN button pos =>
          if button =? 1 then
            match rect e with
            | None => Raise AttributeError
            | Some r =>
                if collidepoint r pos then Ok (e, fire (mbd (handlers e)) event)
                else Ok (e, [])
            end
          else Ok (e, [])
      | MOUSEMOTION pos =>
          match rect e with
          | None => Raise AttributeError
          | Some r =>
              let mouse_motion := collidepoint r pos in
              let '(e1, calls1) :=
                if mouse_motion then
                  let '(e0, entered) :=
                    if negb (mouse_inside e)
                    then (with_mouse_inside true e, fire (menter (handlers e)) event)
                    else (e, []) in
                  (e0, entered ++ fire (mover (handlers e)) event)
                else (e, []) in
              if negb mouse_motion && mouse_inside e1
              then Ok (with_mouse_inside false e1,
                       calls1 ++ fire (mexit (handlers e)) event)
              else Ok (e1, calls1)
          end
      | OTHEREVENT _ => Ok (e, [])
      end;
    Ok (e', calls ++ map (fun uhandler => Call3 uhandler event tick)
                         (uevent (handlers e))).

(** An element with a rectangle and all four slots bound. *)
Definition button_element (inside : bool) : UIElement :=
  with_mouse_inside inside
    (with_rect (Some (mkRect 10 10 100 50))
       (with_handlers
          (mkHandlers (Some (UserFunction 0)) (Some (UserFunction 1))
             (Some (UserFunction 2)) (Some (UserFunction 3)) [UserFunction 4])
          (UIElement_init (XYComplex.mk 0 10 0 10) (Some (mkSurface 100 50)) VNone 1))).

Definition with_active (b : bool) (e : UIElement) : UIElement :=
  mkUIElement (name e) (rel_pos e) (surf e) (c_surf e) (rect e) (fill_color e)
    (priority e) (visible e) b (handlers e) (mouse_inside e) (parent e) (children e).

(** ** What the module calls outside itself

    The string methods used by [Text.render_text], the loading of an image
    file, and the overlap test of two pygame masks. *)
Class External : Type := mkExternal {
  str_splitlines : string -> list string;
  str_split : string -> list string;
  image_load : string -> result Surface;
  mask_overlap : Mask -> Mask -> Z * Z -> option (Z * Z)
}.

(** ** [ppm_collide], [ppm_detected] *)

(** [o.rect]: every [UIElement] has the attribute, a [Scene] has not. *)
Definition obj_rect (o : object) : result (option Rect) :=
  match as_UIElement o with
  | Some e => Ok (rect e)
  | None => Raise AttributeError
  end.

(** [o.mask]: set by [Sprite.__init__] when [has_mask] holds. *)
Definition obj_mask (o : object) : result (option Mask) :=
  match o with
  | ASprite s => if has_mask s then Ok (mask s) else Raise AttributeError
  | _ => Raise AttributeError
  end.

(** [bool(collision)] for a point or [None]: a pair is never empty. *)
Definition bool_of_point (collision : option (Z * Z)) : bool :=
  match collision with
  | Some _ => true
  | None => false
  end.

Section collision.
Context `{External}.

Definition ppm_collide (this other : object) : result (option (Z * Z)) :=
  other_rect ← obj_rect other;
  match other_rect with
  | None => Raise AttributeError
  | Some other_rect =>
      this_rect ← obj_rect this;
      match this_rect with
      | None => Raise AttributeError
      | Some this_rect =>
          let other_rel_x := fst (topleft other_rect) - fst (topleft this_rect) in
          let other_rel_y := snd (topleft other_rect) - snd (topleft this_rect) in
          this_mask ← obj_mask this;
          match this_mask with
          | None => Raise AttributeError
          | Some this_mask =>
              other_mask ← obj_mask other;
              match other_mask with
              | None => Raise TypeError
              | Some other_mask =>
                  match mask_overlap this_mask other_mask (other_rel_x, other_rel_y) with
                  | Some overlap =>
                      Ok (Some (fst overlap + fst (topleft this_rect),
                                snd overlap + snd (topleft this_rect)))
                  | None => Ok None
                  end
              end
          end
      end
  end.

Definition ppm_detected (this other : object) : result bool :=
  collision ← ppm_collide this other;
  Ok (bool_of_point collision).

End collision.

(** *** A concrete environment, for worked examples *)

(** The pieces of [s] between occurrences of [sep]. *)
Fixpoint split_on (sep : ascii) (s : string) : list string :=
  match s with
  | EmptyString => [EmptyString]
  | String c s' =>
      if Ascii.eqb c sep then EmptyString :: split_on sep s'
      else match split_on sep s' with
           | [] => [String c EmptyString]
           | piece :: pieces => String c piece :: pieces
           end
  end.

Definition nonempty (s : string) : bool :=
  match s with
  | EmptyString => false
  | String _ _ => true
  end.

(** The first set pixel of [a] that meets a set pixel of [b] placed at
    [offset]. *)
Definition pixel_overlap (a b : Mask) (offset : Z * Z) : option (Z * Z) :=
  List.find
    (fun p =>
       existsb (fun q => (fst q + fst offset =? fst p) && (snd q + snd offset =? snd p))
         (mask_bits b))
    (mask_bits a).

(** Text of plain words separated by single spaces, lines by line feeds; no
    image files. *)
Definition plain_external : External :=
  {| str_splitlines := fun s =>
       match s with
       | EmptyString => []
       | _ => split_on "010"%char s
       end;
     str_split := fun s => List.filter nonempty (split_on " "%char s);
     image_load := fun _ => Raise FileNotFoundError;
     mask_overlap := pixel_overlap |}.

(** Two sprites after [update()]: a 2x2 square of set pixels each, the
    second placed at [where_]. *)
Definition square_sprite (where_ : Z * Z) : object :=
  ASprite
    (mkSprite
       (mkImage
          (with_rect (Some (mkRect (fst where_) (snd where_) 2 2))
             (UIElement_init (XYComplex.mk 0 0 0 0) (Some (mkSurface 2 2)) (VInt 1) 1))
          (inr (mkSurface 2 2)))
       0 0 true (Some (mkMask (2, 2) [(0, 0); (1, 0); (0, 1); (1, 1)]))).

(** ** [ScrollingFrame] *)

Definition with_scroll_pos (p : Q) (f : ScrollingFrame) : ScrollingFrame :=
  mkScrollingFrame (sf_base f) (window f) (window_size f) (scroll_limits f) p
    (scroll_speed f) (scrollable f) (mouse_over f) (scroll_fill f)
    (scrollbar_surf f) (scrollbar_padding f) (scrollbar_width f) (show_scrollbar f).

Definition with_mouse_over (b : bool) (f : ScrollingFrame) : ScrollingFrame :=
  mkScrollingFrame (sf_base f) (window f) (window_size f) (scroll_limits f)
    (scroll_pos f) (scroll_speed f) (scrollable f) b (scroll_fill f)
    (scrollbar_surf f) (scrollbar_padding f) (scrollbar_width f) (show_scrollbar f).

Definition with_sf_base (e : UIElement) (f : ScrollingFrame) : ScrollingFrame :=
  mkScrollingFrame e (window f) (window_size f) (scroll_limits f)
    (scroll_pos f) (scroll_speed f) (scrollable f) (mouse_over f) (scroll_fill f)
    (scrollbar_surf f) (scrollbar_padding f) (scrollbar_width f) (show_scrollbar f).

(** [a < b] on numbers. *)
Definition Qlt_bool (a b : Q) : bool := negb (Qle_bool b a).

(** [ScrollingFrame.scroll]: clears the window and blits the content on it;
    only the attributes it needs are visible here. *)
Definition scroll (f : ScrollingFrame) : result unit :=
  match window f with
  | None => Raise AttributeError
  | Some _ =>
      match surf (sf_base f) with
      | None => Raise TypeError
      | Some _ => Ok tt
      end
  end.

(** [ScrollingFrame.scroll_handler(self, uie, event, tick)].  The store
    after the call comes with the outcome, since [scroll_pos] is assigned
    before [self.scroll()] can raise. *)
Definition scroll_handler (h : heap) (self : ref) (uie : ref) (event : Event)
    (tick : option Z) : heap * result unit :=
  match h !! self with
  | None => (h, Stuck Dangling)
  | Some (AScrollingFrame f) =>
      if negb (mouse_over f) then (h, Ok tt)
      else if negb (scrollable f) then (h, Ok tt)
      else
        match parent (sf_base f) with
        | None => (h, Raise AttributeError)
        | Some p =>
            match h !! p with
            | None => (h, Stuck Dangling)
            | Some po =>
                match obj_surf po with
                | None => (h, Ok tt)
                | Some parent_surf =>
                    match event with
                    | MOUSEBUTTONDOWN button _ =>
                        let f' :=
                          if button =? 4 then
                            with_scroll_pos
                              (scroll_pos f + Qmin (scroll_speed f) (- scroll_pos f))%Q f
                          else if button =? 5 then
                            let absolute_window_size :=
                              to_simple (window_size f) parent_surf in
                            if Qlt_bool (XYSimple.yOffset absolute_window_size)
                                 (XYSimple.yOffset (scroll_limits f))
                            then
                              with_scroll_pos
                                (scroll_pos f -
                                 Qmin (scroll_speed f)
                                   (XYSimple.yOffset (scroll_limits f) + scroll_pos f
                                    - XYSimple.yOffset absolute_window_size))%Q f
                            else f
                          else f in
                        (<[self := AScrollingFrame f']> h, scroll f')
                    | _ => (h, Ok tt)
                    end
                end
            end
        end
  | Some _ => (h, Raise AttributeError)
  end.

(** The store after a sequence of calls of the handler, one per event. *)
Definition scroll_events (h : heap) (self : ref) (events : list Event) : heap :=
  fold_left (fun h event => fst (scroll_handler h self self event None)) events h.

(** [self.scroll_pos], read through the reference. *)
Definition scroll_pos_at (h : heap) (self : ref) : option Q :=
  match h !! self with
  | Some (AScrollingFrame f) => Some (scroll_pos f)
  | _ => None
  end.

(** [ScrollingFrame.__init__]. *)
Definition ScrollingFrame_init (pos : XYComplex.t) (scroll_limits : XYSimple.t Q)
    (window_size : XYComplex.t) (scroll_fill : value) (render_priority : Z)
  : ScrollingFrame :=
  let base :=
    UIElement_init pos None (VInt render_priority) default_render_priority in
  let base :=
    with_handlers
      (mkHandlers (mbd (handlers base)) (mover (handlers base))
         (menter (handlers base)) (mexit (handlers base))
         (uevent (handlers base) ++ [Bound_scroll_handler])) base in
  let base :=
    with_handlers
      (mkHandlers (mbd (handlers base)) (mover (handlers base))
         (Some Bound_menter) (mexit (handlers base)) (uevent (handlers base))) base in
  let base :=
    with_handlers
      (mkHandlers (mbd (handlers base)) (mover (handlers base))
         (menter (handlers base)) (Some Bound_mexit) (uevent (handlers base))) base in
  {| sf_base := base;
     window := None;
     window_size := window_size;
     scroll_limits := scroll_limits;
     scroll_pos := 0;
     scroll_speed := 10;
     scrollable := true;
     mouse_over := false;
     scroll_fill := if truthy scroll_fill then scroll_fill else VTuple [230; 230; 230];
     scrollbar_surf := None;
     scrollbar_padding := 4;
     scrollbar_width := 2;
     show_scrollbar := true |}.

(** A frame of content height 500 and window height 100, with the pointer
    over it, and the scene that holds it. *)
Definition hovered_frame : ScrollingFrame :=
  with_mouse_over true
    (ScrollingFrame_init (XYComplex.mk 0 0 0 0) (XYSimple.mk 300%Q 500%Q)
       (XYComplex.mk 0 300 0 100) VNone 1).

Definition scrolling_scene : heap :=
  let h : heap :=
    <[1%nat := AScrollingFrame hovered_frame]> (<[0%nat := AScene the_scene]> ∅) in
  match set_parent h 1%nat 0%nat with
  | Ok h1 => h1
  | _ => h
  end.

Definition wheel_down : Event := MOUSEBUTTONDOWN 5 (0, 0).

(** The height to which [window_size] resolves on the parent's surface. *)
Definition viewport_height (f : ScrollingFrame) (parent_surf : Surface) : Q :=
  XYSimple.yOffset (to_simple (window_size f) parent_surf).



(** ** [Text] *)

(** One entry of [render_list]: the word surfaces of a line with their
    positions, and the x offset of the line (for centering). *)
Record line_surfs : Type := mkLine {
  line_words : list (Surface * (Q * Q));
  line_offset : Q
}.

(** The local variables of [render_text] that the loops assign.  [word_h]
    is unbound until the first word has been rendered. *)
Record packing : Type := mkPacking {
  cur_x : Q;
  cur_y : Q;
  n_lines : Z;
  word_h : option Z;
  render_list : list line_surfs
}.

(** A blit onto [text_surf]: the source and the destination. *)
Definition blit : Type := (Surface * (Q * Q))%type.

Section text.
Context `{External}.

(** The body of [for j, word in enumerate(line)]. *)
Definition pack_word (t : Text) (max_width : Z) (pos : Q * Q) (space : Z)
    (len_line : nat) (state : packing * line_surfs) (j_word : nat * string)
  : packing * line_surfs :=
  let '(st, line) := state in
  let '(j, word) := j_word in
  let word_surf := font_render (font t) word (font_args t) in
  let word_w := get_width word_surf in
  let word_h' := get_height word_surf in
  let '(st1, line1) :=
    if Qle_bool (inject_Z max_width)
         (cur_x st + (1#2) * inject_Z word_w + line_offset line)
    then
      (mkPacking (fst pos) (cur_y st + inject_Z word_h')
         (if anchor t =? 1 then n_lines st + 1 else n_lines st)
         (Some word_h') (render_list st ++ [line]),
       mkLine [] 0)
    else (st, line) in
  let line2 :=
    mkLine (line_words line1 ++ [(word_surf, (cur_x st1, cur_y st1))])
      (if anchor t =? 1
       then line_offset line1
            - (1#2) * (inject_Z word_w
                       + (if Z.of_nat j <? Z.of_nat len_line - 1
                          then inject_Z space else 0))
       else line_offset line1) in
  (mkPacking (cur_x st1 + inject_Z word_w + inject_Z space) (cur_y st1)
     (n_lines st1) (Some word_h') (render_list st1),
   line2).

(** [enumerate(line)]. *)
Definition enumerate {A : Type} (l : list A) : list (nat * A) :=
  combine (seq 0 (length l)) l.

(** The body of [for i, line in enumerate(lines)]. *)
Definition pack_line (t : Text) (max_width : Z) (pos : Q * Q) (space : Z)
    (st : packing) (line : list string) : result packing :=
  let '(st1, line1) :=
    fold_left (pack_word t max_width pos space (length line)) (enumerate line)
      (st, mkLine [] 0) in
  match word_h st1 with
  | None => Raise NameError
  | Some h =>
      Ok (mkPacking (fst pos) (cur_y st1 + inject_Z h)
            (if anchor t =? 1 then n_lines st1 + 1 else n_lines st1)
            (Some h) (render_list st1 ++ [line1]))
  end.

(** The wrapping part of [render_text], up to the creation of
    [text_surf]: the state of the local variables after both loops. *)
Definition pack_lines (t : Text) : result packing :=
  match surf (text_base t) with
  | None => Raise AttributeError
  | Some s =>
      let lines := map str_split (str_splitlines (_text t)) in
      let space := fst (font_size (font t) " ") in
      let max_width := get_width s in
      let max_height := get_height s in
      let pos : Q * Q :=
        if anchor t =? 0 then (0, 0)%Q
        else (inject_Z (py_int (inject_Z max_width / 2)),
              inject_Z (py_int (inject_Z max_height / 2))) in
      fold_left
        (fun acc line => st ← acc; pack_line t max_width pos space st line)
        lines
        (Ok (mkPacking (fst pos) (snd pos) 0 None []))
  end.

(** The blits of the last loop of [render_text], in order. *)
Definition word_blits (t : Text) (st : packing) : result (list blit) :=
  match List.concat (map (fun line => map (fun w => (line, w)) (line_words line))
                       (render_list st)) with
  | [] => Ok []
  | placed =>
      match word_h st with
      | None => Raise NameError
      | Some h =>
          Ok (map (fun '(line, (word_surf, draw_pos)) =>
                     if anchor t =? 1
                     then (word_surf,
                           (fst draw_pos + line_offset line,
                            snd draw_pos - inject_Z (n_lines st) * inject_Z h / 2))
                     else (word_surf, draw_pos))
                placed)
      end
  end%Q.

Definition with_text_surf (s : option Surface) (t : Text) : Text :=
  mkText (text_base t) (anchor t) (_text t) (font t) (font_args t) s (wrap t).

(** [Text.render_text]: the element with its new [text_surf], and the blits
    made onto it. *)
Definition render_text (t : Text) : result (Text * list blit) :=
  if wrap t then
    st ← pack_lines t;
    blits ← word_blits t st;
    match surf (text_base t) with
    | None => Raise AttributeError
    | Some s => Ok (with_text_surf (Some (mkSurface (get_width s) (get_height s))) t, blits)
    end
  else
    Ok (with_text_surf (Some (font_render (font t) (_text t) (font_args t))) t, []).



End text.

(** ** The constructors of the subclasses *)



Section constructors.
Context `{External}.


Definition Image_init (pos : XYComplex.t) (image_path : string + Surface)
    (render_priority : Z) : result Image :=
  match image_path with
  | inl path =>
      s ← image_load path;
      Ok (mkImage (UIElement_init pos (Some s) (VInt render_priority)
                     default_render_priority) image_path)
  | inr s =>
      Ok (mkImage (UIElement_init pos (Some s) (VInt render_priority)
                     default_render_priority) image_path)
  end.

Definition Sprite_init (pos : XYComplex.t) (image_path : string + Surface)
    (anchor : Z) (render_priority : Z) (mask : bool) : result Sprite :=
  img ← Image_init pos image_path render_priority;
  Ok (mkSprite img anchor 0 mask None).

End constructors.

(** A font whose every word is 10 wide and 12 high, with a space of 4. *)
Definition block_font : Font :=
  {| font_size := fun text => (if String.eqb text " " then 4 else 10, 12);
     font_render := fun _ _ => mkSurface 10 12 |}.

(** *** The claim about wrapping, in the words of the specification *)




(** Four words of width 10 with a space of 4 on a surface [W] wide. *)
Definition four_words (W : Z) (anchor : Z) : Text :=
  mkText (UIElement_init (XYComplex.mk 0 0 0 0) (Some (mkSurface W 48)) (VTuple [0; 0; 0]) 1)
    anchor "one two three four" block_font [] None true.

(** ** [clamp_color] *)

(** One channel of [clamp_color]: the [if c < 0 ... elif c > 255 ...]. *)
Definition clamp_channel (c : Q) : Q :=
  if Qlt_bool c 0 then 0%Q
  else if Qlt_bool 255 c then 255%Q
  else c.

(** [rgb] is any sequence; [rgb[0]], [rgb[1]], [rgb[2]] are read. *)
Definition clamp_color (rgb : list Q) : result (Q * Q * Q) :=
  match rgb with
  | r :: g :: b :: _ => Ok (clamp_channel r, clamp_channel g, clamp_channel b)
  | _ => Raise IndexError
  end.

(** ** [UIElement.offset], [UIElement.center_position] *)

Definition with_rel_pos (pos : XYComplex.t) (e : UIElement) : UIElement :=
  mkUIElement (name e) pos (surf e) (c_surf e) (rect e) (fill_color e)
    (priority e) (visible e) (active e) (handlers e) (mouse_inside e) (parent e)
    (children e).

(** [tuple(self.rel_pos[i] + c for i, c in enumerate(offset))]. *)
Definition offset (delta : XYComplex.t) (e : UIElement) : UIElement :=
  with_rel_pos
    (XYComplex.mk
       (XYComplex.xScale (rel_pos e) + XYComplex.xScale delta)
       (XYComplex.xOffset (rel_pos e) + XYComplex.xOffset delta)
       (XYComplex.yScale (rel_pos e) + XYComplex.yScale delta)
       (XYComplex.yOffset (rel_pos e) + XYComplex.yOffset delta))%Q
    e.


(** ** [UIElement.unparent] *)

(** [l.remove(x)]: [l] without its first [x]; [None] stands for the
    [ValueError] that Python raises when [x] is not in [l]. *)
Fixpoint py_remove (x : ref) (l : list ref) : option (list ref) :=
  match l with
  | [] => None
  | y :: l' =>
      if Nat.eqb x y then Some l'
      else match py_remove x l' with
           | Some rest => Some (y :: rest)
           | None => None
           end
  end.

(** An outcome that may also be the [ValueError] of [list.remove]. *)
Inductive outcome (A : Type) : Type :=
| Returns (r : result A)
| RaisesValueError.

Arguments Returns {A} r.
Arguments RaisesValueError {A}.

Definition unparent (h : heap) (self : ref) : outcome heap :=
  match h !! self with
  | None => Returns (Stuck Dangling)
  | Some o =>
      match as_UIElement o with
      | None => Returns (Raise AttributeError)
      | Some e =>
          match parent e with
          | None => Returns (Raise AttributeError)
          | Some p =>
              match h !! p with
              | None => Returns (Stuck Dangling)
              | Some po =>
                  match py_remove self (obj_children po) with
                  | None => RaisesValueError
                  | Some rest =>
                      let h1 := <[p := set_children rest po]> h in
                      match h1 !! self with
                      | None => Returns (Stuck Dangling)
                      | Some o1 =>
                          Returns (Ok (<[self := map_base (with_parent None) o1]> h1))
                      end
                  end
              end
          end
      end
  end.

(** [o.parent] and [o.children], read through a reference. *)
Definition parent_at (h : heap) (r : ref) : option ref :=
  match h !! r with
  | Some o => match as_UIElement o with Some e => parent e | None => None end
  | None => None
  end.

Definition children_at (h : heap) (r : ref) : list ref :=
  match h !! r with
  | Some o => obj_children o
  | None => []
  end.

(** Two panels and a label under no parent yet. *)
Definition loose_parts : heap :=
  let e := AUIElement (UIElement_init (XYComplex.mk 0 0 0 0) None VNone 1) in
  <[2%nat := e]> (<[1%nat := e]> (<[0%nat := e]> ∅)).

(** ** Binding and unbinding handlers *)

Definition bind_mbd (f : handler) (e : UIElement) : UIElement :=
  with_handlers
    (mkHandlers (Some f) (mover (handlers e)) (menter (handlers e))
       (mexit (handlers e)) (uevent (handlers e))) e.

Definition bind_mover (f : handler) (e : UIElement) : UIElement :=
  with_handlers
    (mkHandlers (mbd (handlers e)) (Some f) (menter (handlers e))
       (mexit (handlers e)) (uevent (handlers e))) e.

Definition bind_menter (f : handler) (e : UIElement) : UIElement :=
  with_handlers
    (mkHandlers (mbd (handlers e)) (mover (handlers e)) (Some f)
       (mexit (handlers e)) (uevent (handlers e))) e.

Definition bind_mexit (f : handler) (e : UIElement) : UIElement :=
  with_handlers
    (mkHandlers (mbd (handlers e)) (mover (handlers e)) (menter (handlers e))
       (Some f) (uevent (handlers e))) e.

Definition bind_u (f : handler) (e : UIElement) : UIElement :=
  with_handlers
    (mkHandlers (mbd (handlers e)) (mover (handlers e)) (menter (handlers e))
       (mexit (handlers e)) (uevent (handlers e) ++ [f])) e.

Definition unbind_mbd (e : UIElement) : UIElement :=
  with_handlers
    (mkHandlers None (mover (handlers e)) (menter (handlers e))
       (mexit (handlers e)) (uevent (handlers e))) e.

Definition unbind_mover (e : UIElement) : UIElement :=
  with_handlers
    (mkHandlers (mbd (handlers e)) None (menter (handlers e))
       (mexit (handlers e)) (uevent (handlers e))) e.

Definition unbind_menter (e : UIElement) : UIElement :=
  with_handlers
    (mkHandlers (mbd (handlers e)) (mover (handlers e)) None
       (mexit (handlers e)) (uevent (handlers e))) e.

Definition unbind_mexit (e : UIElement) : UIElement :=
  with_handlers
    (mkHandlers (mbd (handlers e)) (mover (handlers e)) (menter (handlers e))
       None (uevent (handlers e))) e.

(** [l.pop(index)]: a negative index counts from the end; out of range is
    [IndexError]. *)
Definition py_pop {A : Type} (l : list A) (index : Z) : result (A * list A) :=
  let n := Z.of_nat (length l) in
  let i := if index <? 0 then index + n else index in
  if (i <? 0) || (n <=? i) then Raise IndexError
  else
    match nth_error l (Z.to_nat i) with
    | Some x => Ok (x, firstn (Z.to_nat i) l ++ skipn (S (Z.to_nat i)) l)
    | None => Raise IndexError
    end.

(** [unbind_u(index=-1)]: the handler removed, and the element after. *)
Definition unbind_u (e : UIElement) (index : Z) : result (handler * UIElement) :=
  '(f, rest) ← py_pop (uevent (handlers e)) index;
  Ok (f, with_handlers
           (mkHandlers (mbd (handlers e)) (mover (handlers e)) (menter (handlers e))
              (mexit (handlers e)) rest) e).


(** The calls of the universal handlers, in the order of the list. *)
Definition universal_calls (e : UIElement) (event : Event) (tick : option Z)
  : list call :=
  map (fun uhandler => Call3 uhandler event tick) (uevent (handlers e)).

(** ** [ScrollingFrame._menter], [ScrollingFrame._mexit] and the dispatch
    of events to a frame *)

(** What a logged call does to the frame at [self].  The bound methods of
    the frame run; a function of the application is outside the module and
    is taken to leave the store as it is.  [_menter] and [_mexit] accept any
    arguments; [scroll_handler] needs three besides [self]. *)
Definition run_call (h : heap) (self : ref) (c : call) : heap * result unit :=
  let set_mouse_over b :=
    match h !! self with
    | Some (AScrollingFrame f) =>
        (<[self := AScrollingFrame (with_mouse_over b f)]> h, Ok tt)
    | Some _ => (h, Raise AttributeError)
    | None => (h, Stuck Dangling)
    end in
  match c with
  | Call2 Bound_menter _ | Call3 Bound_menter _ _ => set_mouse_over true
  | Call2 Bound_mexit _ | Call3 Bound_mexit _ _ => set_mouse_over false
  | Call3 Bound_scroll_handler event tick => scroll_handler h self self event tick
  | Call2 Bound_scroll_handler _ => (h, Raise TypeError)
  | Call2 (UserFunction _) _ | Call3 (UserFunction _) _ _ => (h, Ok tt)
  end.

(** The calls in order; the first failure ends the sequence. *)
Fixpoint run_calls (h : heap) (self : ref) (calls : list call) : heap * result unit :=
  match calls with
  | [] => (h, Ok tt)
  | c :: rest =>
      match run_call h self c with
      | (h1, Ok _) => run_calls h1 self rest
      | (h1, failure) => (h1, failure)
      end
  end.

(** [frame.handle_event(event, tick)] for a [ScrollingFrame]: in every path
    of [handle_event] the assignments to [mouse_inside] come before the
    calls, so the base object is stored first and the calls run after. *)
Definition frame_handle_event (h : heap) (self : ref) (event : Event)
    (tick : option Z) : heap * result unit :=
  match h !! self with
  | None => (h, Stuck Dangling)
  | Some (AScrollingFrame f) =>
      match handle_event (sf_base f) event tick with
      | Ok (e', calls) =>
          run_calls (<[self := AScrollingFrame (with_sf_base e' f)]> h) self calls
      | Raise e => (h, Raise e)
      | Stuck s => (h, Stuck s)
      end
  | Some _ => (h, Raise AttributeError)
  end.

(** The handler table that [ScrollingFrame.__init__] leaves. *)
Definition frame_handlers : Handlers :=
  mkHandlers None None (Some Bound_menter) (Some Bound_mexit) [Bound_scroll_handler].

(** The frame of the scrolling scene after [update()], not yet hovered: the
    window is 300x100 at the origin, the content 300x500. *)
Definition updated_frame : ScrollingFrame :=
  let f :=
    ScrollingFrame_init (XYComplex.mk 0 0 0 0) (XYSimple.mk 300%Q 500%Q)
      (XYComplex.mk 0 300 0 100) VNone 1 in
  mkScrollingFrame
    (with_parent (Some 0%nat)
       (with_rect (Some (mkRect 0 0 300 100))
          (with_surf (Some (mkSurface 300 500)) (sf_base f))))
    (Some (mkSurface 300 100)) (window_size f) (scroll_limits f) (scroll_pos f)
    (scroll_speed f) (scrollable f) (mouse_over f) (scroll_fill f)
    (Some (mkSurface 2 18)) (scrollbar_padding f) (scrollbar_width f)
    (show_scrollbar f).

Definition updated_scene : heap :=
  <[1%nat := AScrollingFrame updated_frame]>
    (<[0%nat := AScene (mkScene true (Some (mkSurface 640 480)) 1 [1%nat])]> ∅).


(** The frame keeps its parent, sizes and speed, and [scroll_pos] satisfies
    [P]. *)
Definition scroll_state (P : Q -> Prop) (self p : ref) (f : ScrollingFrame)
    (parent_surf : Surface) (h : heap) : Prop :=
  exists f' po,
    h !! self = Some (AScrollingFrame f') /\
    parent (sf_base f') = Some p /\
    surf (sf_base f') = surf (sf_base f) /\
    h !! p = Some po /\
    obj_surf po = Some parent_surf /\
    window_size f' = window_size f /\
    scroll_limits f' = scroll_limits f /\
    scroll_speed f' = scroll_speed f /\
    P (scroll_pos f').

(** ** The [text] property of [Text] *)

Definition with__text (s : string) (t : Text) : Text :=
  mkText (text_base t) (anchor t) s (font t) (font_args t) (text_surf t) (wrap t).


(** The word surfaces placed so far, in order: those of the finished lines,
    then those of the line being filled. *)
Definition placed_words (st : packing) (line : line_surfs) : list (Surface * (Q * Q)) :=
  List.concat (map line_words (render_list st)) ++ line_words line.

(** The words of the text, line after line. *)
Definition words_of `{External} (t : Text) : list string :=
  List.concat (map str_split (str_splitlines (_text t))).

(** The lines of the text, each split in words. *)
Definition lines_of `{External} (t : Text) : list (list string) :=
  map str_split (str_splitlines (_text t)).


(** ** [Screen] and [Scene.__init__] *)












(** ** [update_rect] and [update] *)

(** [surf.get_rect()]: the rectangle of the size of [surf] at the origin. *)
Definition get_rect (s : Surface) : Rect := mkRect 0 0 (get_width s) (get_height s).

(** [rect.topleft = p] and [rect.center = p]: pygame has the centre of a
    rectangle at [left + width // 2] and [top + height // 2]. *)
Definition set_topleft (p : XYSimple.t Z) (r : Rect) : Rect :=
  mkRect (XYSimple.xOffset p) (XYSimple.yOffset p) (width r) (height r).

Definition set_center (p : XYSimple.t Z) (r : Rect) : Rect :=
  mkRect (XYSimple.xOffset p - width r / 2) (XYSimple.yOffset p - height r / 2)
    (width r) (height r).

Definition with_c_surf (s : option Surface) (e : UIElement) : UIElement :=
  mkUIElement (name e) (rel_pos e) (surf e) s (rect e) (fill_color e)
    (priority e) (visible e) (active e) (handlers e) (mouse_inside e) (parent e)
    (children e).

Definition with_mask (m : option Mask) (s : Sprite) : Sprite :=
  mkSprite (spr_image s) (spr_anchor s) (rot s) (has_mask s) m.

(** [pygame.transform.rotate] and [pygame.mask.from_surface]. *)
Class Transform : Type := mkTransform {
  transform_rotate : Surface -> Q -> Surface;
  mask_from_surface : Surface -> Mask
}.

(** The two assignments of an [update_rect]: [self.rect = r], then
    [place] (one of [rect.topleft = ...], [rect.center = ...]) with the
    result of [self.calculate_absolute_position()].  When the position
    cannot be computed the first assignment stays. *)
Definition place_rect (fuel : nat) (h : heap) (self : ref) (o : object) (r : Rect)
    (place : XYSimple.t Z -> Rect -> Rect) : heap * result unit :=
  let h1 := <[self := map_base (with_rect (Some r)) o]> h in
  match calculate_absolute_position fuel h1 self with
  | Ok p => (<[self := map_base (with_rect (Some (place p r))) o]> h1, Ok tt)
  | Raise x => (h1, Raise x)
  | Stuck s => (h1, Stuck s)
  end.

Section updating.
Context `{Transform}.

(** [self.update_rect()], by the class of [self]: [ScrollingFrame] takes the
    rectangle of its window, [Sprite] that of its rotated surface, placed by
    its anchor, every other element that of its surface. *)
Definition update_rect (fuel : nat) (h : heap) (self : ref) : heap * result unit :=
  match h !! self with
  | None => (h, Stuck Dangling)
  | Some o =>
      match o with
      | AScene _ => (h, Raise AttributeError)
      | AScrollingFrame f =>
          match window f with
          | None => (h, Raise AttributeError)
          | Some w => place_rect fuel h self o (get_rect w) set_topleft
          end
      | ASprite s =>
          match surf (img_base (spr_image s)) with
          | None => (h, Raise TypeError)
          | Some sf =>
              let r := get_rect (transform_rotate sf (rot s)) in
              if spr_anchor s =? 0 then place_rect fuel h self o r set_topleft
              else if spr_anchor s =? 1 then place_rect fuel h self o r set_center
              else (<[self := map_base (with_rect (Some r)) o]> h, Ok tt)
          end
      | _ =>
          match obj_surf o with
          | None => (h, Raise AttributeError)
          | Some sf => place_rect fuel h self o (get_rect sf) set_topleft
          end
      end
  end.

(** [UIElement.update]. *)
Definition UIElement_update (fuel : nat) (h : heap) (self : ref) : heap * result unit :=
  match h !! self with
  | None => (h, Stuck Dangling)
  | Some o =>
      match as_UIElement o with
      | None => (h, Raise AttributeError)
      | Some e =>
          match surf e with
          | None => (h, Raise AssertionError)
          | Some s =>
              update_rect fuel (<[self := map_base (with_c_surf (Some s)) o]> h) self
          end
      end
  end.

(** [Sprite.update]. *)
Definition Sprite_update (fuel : nat) (h : heap) (self : ref) : heap * result unit :=
  let '(h1, r) := UIElement_update fuel h self in
  match r with
  | Ok _ =>
      match h1 !! self with
      | None => (h1, Stuck Dangling)
      | Some (ASprite s) =>
          if has_mask s then
            match surf (img_base (spr_image s)) with
            | None => (h1, Raise TypeError)
            | Some sf =>
                (<[self := ASprite (with_mask (Some (mask_from_surface sf)) s)]> h1, Ok tt)
            end
          else (h1, Ok tt)
      | Some _ => (h1, Raise AttributeError)
      end
  | _ => (h1, r)
  end.

End updating.

(** What [calculate_absolute_position] reads of an object. *)
Definition position_view (o : object)
  : option (XYComplex.t * option ref) * option Surface :=
  (option_map (fun e => (rel_pos e, parent e)) (as_UIElement o), obj_surf o).

(** The classes that inherit [update_rect] and [update] from [UIElement]. *)
Definition inherits_update (o : object) : bool :=
  match o with
  | AUIElement _ | AOption _ | AText _ | AImage _ => true
  | _ => false
  end.

(** The object after a completed [update()] of an element with surface [s]
    that left it the rectangle [r]. *)
Definition updated (s : Surface) (r : Rect) (o : object) : object :=
  map_base (fun e => with_rect (Some r) (with_c_surf (Some s) e)) o.

(** Rotation by a multiple of a quarter turn, and a mask of every pixel. *)
Definition quarter_turns : Transform :=
  {| transform_rotate := fun s angle =>
       if Z.even (py_int (angle / 90)) then s
       else mkSurface (get_height s) (get_width s);
     mask_from_surface := fun s =>
       mkMask (get_width s, get_height s)
         (flat_map (fun y => map (fun x => (Z.of_nat x, Z.of_nat y))
                               (seq 0 (Z.to_nat (get_width s))))
                   (seq 0 (Z.to_nat (get_height s)))) |}.

(** An element with a surface that was never given a parent. *)
Definition orphan_store : heap :=
  <[0%nat := AUIElement (UIElement_init (XYComplex.mk 0 10 0 10)
                           (Some (mkSurface 100 50)) VNone 1)]> ∅.

(** The sprite after a completed [update()] that left it the rectangle [r]:
    the mask is that of the surface, not of the rotated surface. *)
Definition updated_sprite `{Transform} (s : Surface) (r : Rect) (sp : Sprite) : Sprite :=
  mkSprite
    (mkImage (with_rect (Some r) (with_c_surf (Some s) (img_base (spr_image sp))))
       (image_path (spr_image sp)))
    (spr_anchor sp) (rot sp) (has_mask sp)
    (if has_mask sp then Some (mask_from_surface s) else mask sp).

(** A scene with two 2x2 sprites anchored by their centres at (10, 10) and
    at (11, 11), fresh from the constructor. *)
Definition sprite_store : heap :=
  match Sprite_init (H := plain_external) (XYComplex.mk 0 10 0 10)
          (inr (mkSurface 2 2)) 1 1 true,
        Sprite_init (H := plain_external) (XYComplex.mk 0 11 0 11)
          (inr (mkSurface 2 2)) 1 1 true with
  | Ok a, Ok b =>
      let h : heap :=
        <[2%nat := ASprite b]> (<[1%nat := ASprite a]> (<[0%nat := AScene the_scene]> ∅)) in
      match (h1 ← set_parent h 1%nat 0%nat; set_parent h1 2%nat 0%nat) with
      | Ok h2 => h2
      | _ => h
      end
  | _, _ => ∅
  end.

(** [o] with its rectangle, if it has one, moved by [d]. *)
Definition moved (d : Z * Z) (o : object) : object :=
  map_base
    (fun e =>
       with_rect
         (option_map (fun r => mkRect (left r + fst d) (top r + snd d) (width r) (height r))
            (rect e)) e) o.

(** The result of a collision test, moved by [d]. *)
Definition moved_point (d : Z * Z) (r : result (option (Z * Z))) : result (option (Z * Z)) :=
  collision ← r;
  Ok (option_map (fun p => (fst p + fst d, snd p + snd d)) collision).

(** ** [UIElement.draw], [UIElement.draw_seq] *)



(** * Properties *)

(** *** Arithmetic of [py_int] and [py_sum] *)


Lemma py_int_inject_Z (n : Z) : py_int (inject_Z n) = n.
Proof. unfold py_int; simpl. apply Z.quot_1_r. Qed.






(** *** C1: the absolute position is the truncated sum along the chain *)









(** *** C3: the order of [get_descendants] *)

Lemma preorder_root (t : tree) : preorder t = root t :: descendants_preorder t.
Proof. destruct t; reflexivity. Qed.

Lemma depth_kid (k : tree) (ks : list tree) :
  In k ks -> (depth k <= fold_right Nat.max O (map depth ks))%nat.
Proof.
  induction ks as [|k' ks IH]; simpl; [tauto|].
  intros [-> | Hin]; [lia|]. specialize (IH Hin). lia.
Qed.

(** The loop over the children, once every recursive call is known. *)
Lemma get_descendants_loop (fuel : nat) (h : heap) (ks : list tree) (acc : list ref) :
  (forall k, In k ks ->
     get_descendants fuel h (root k) = Ok (children_then_descendants k)) ->
  fold_left
    (fun acc child =>
       descendants ← acc;
       more ← get_descendants fuel h child;
       Ok (descendants ++ more))
    (map root ks) (Ok acc)
  = Ok (acc ++ flat_map children_then_descendants ks).
Proof.
  revert acc. induction ks as [|k ks IH]; intros acc Hks; simpl.
  - now rewrite app_nil_r.
  - rewrite (Hks k) by now left. cbn.
    rewrite IH by (intros; apply Hks; now right).
    now rewrite <- app_assoc.
Qed.

Lemma get_descendants_tree (h : heap) (fuel : nat) :
  forall t, tree_at h t -> (depth t <= fuel)%nat ->
  get_descendants fuel h (root t) = Ok (children_then_descendants t).
Proof.
  induction fuel as [|fuel IH]; intros [r ks] Ht Hd; simpl in Hd; [lia|].
  inversion Ht as [r' ks' o Hr Hc Hks]; subst. simpl.
  rewrite Hr, Hc. apply get_descendants_loop.
  intros k Hin. apply IH.
  - rewrite List.Forall_forall in Hks. now apply Hks.
  - pose proof (depth_kid k ks Hin). lia.
Qed.

Lemma children_then_descendants_perm (t : tree) :
  Permutation (children_then_descendants t) (descendants_preorder t).
Proof.
  induction t as [r ks IH] using tree_ind_Forall.
  unfold descendants_preorder. simpl.
  induction ks as [|k ks IHks]; simpl; [constructor|].
  inversion IH as [|k' ks' Hk Hks]; subst.
  rewrite preorder_root. constructor.
  rewrite Permutation_app_swap_app, Hk.
  apply Permutation_app_head. now apply IHks.
Qed.

(** C3 (as the code has it).  On a tree of the store, [get_descendants]
    returns the children of the receiver in order, followed by the result of
    [get_descendants] for each child in order; this lists every node below
    the receiver exactly once: it is a permutation of the pre-order listing,
    without repetition when the nodes of the tree are distinct. *)
Theorem get_descendants_children_first (h : heap) (t : tree) (fuel : nat) :
  tree_at h t ->
  NoDup (preorder t) ->
  (depth t <= fuel)%nat ->
  get_descendants fuel h (root t) = Ok (children_then_descendants t) /\
  children_then_descendants t =
    map root (kids t) ++ flat_map children_then_descendants (kids t) /\
  Permutation (children_then_descendants t) (descendants_preorder t) /\
  NoDup (children_then_descendants t) /\
  (forall r, In r (children_then_descendants t) <-> In r (descendants_preorder t)).
Proof.
  intros Ht Hnd Hfuel. pose proof (children_then_descendants_perm t) as Hperm.
  split; [now apply get_descendants_tree|].
  split; [destruct t; reflexivity|].
  split; [exact Hperm|]. split.
  - rewrite preorder_root in Hnd. apply NoDup_cons in Hnd as [_ Hnd].
    now rewrite Hperm.
  - intros r. split; apply Permutation_in; [exact Hperm|symmetry; exact Hperm].
Qed.

Lemma family_tree_at : tree_at family_tree family.
Proof.
  unfold family.
  apply (tree_at_node _ 0%nat _ (AScene (mkScene true (Some (mkSurface 640 480)) 1 [1; 2]%nat)));
    [vm_compute; reflexivity | reflexivity | ].
  repeat constructor.
  - eapply tree_at_node; [vm_compute; reflexivity | reflexivity | ].
    repeat constructor.
    eapply tree_at_node; [vm_compute; reflexivity | reflexivity | constructor].
  - eapply tree_at_node; [vm_compute; reflexivity | reflexivity | constructor].
Qed.

(** On the scene with two elements and one grandchild, the grandchild comes
    last, after the second child. *)
Lemma get_descendants_family :
  get_descendants 3 family_tree 0%nat = Ok [1; 2; 3]%nat /\
  Permutation [1; 2; 3]%nat (descendants_preorder family).
Proof.
  destruct (get_descendants_children_first family_tree family 3) as (H1 & _ & H2 & _).
  - exact family_tree_at.
  - vm_compute. repeat constructor; intros H; inversion H; subst;
      repeat match goal with H : _ ∈ _ |- _ => inversion H; clear H; subst end.
  - vm_compute. lia.
  - split; [exact H1 | exact H2].
Defined.

(** C3 (as stated) fails: the tree has depth 3, and the result [1; 2; 3] is
    not the pre-order listing [1; 3; 2]. *)
Lemma get_descendants_not_preorder :
  tree_at family_tree family /\
  (3 <= depth family)%nat /\
  ~ returns_preorder family_tree family.
Proof.
  split; [exact family_tree_at|]. split; [vm_compute; lia|].
  intros [fuel Hret].
  destruct (Nat.le_gt_cases (depth family) fuel) as [Hle | Hgt].
  - rewrite (get_descendants_tree _ _ _ family_tree_at Hle) in Hret. discriminate.
  - change (depth family) with 3%nat in Hgt.
    destruct fuel as [|[|[|fuel]]]; [discriminate Hret..|lia].
Qed.

(** *** C6: the priority sort is stable, pass after pass *)

Section py_sort_facts.
Context {A : Type} (key : A -> Z).







End py_sort_facts.














Lemma as_UIElement_map_base (f : UIElement -> UIElement) (o : object) (e : UIElement) :
  as_UIElement o = Some e -> as_UIElement (map_base f o) = Some (f e).
Proof. destruct o; simpl; intros [= <-]; reflexivity. Qed.


Lemma obj_children_element (o : object) (e : UIElement) :
  as_UIElement o = Some e -> obj_children o = children e.
Proof. unfold obj_children. now intros ->. Qed.







(** *** C7: pointer motion and the [mouse_inside] flag *)

Lemma with_mouse_inside_same (e : UIElement) :
  with_mouse_inside (mouse_inside e) e = e.
Proof. destruct e; reflexivity. Qed.

(** C7.  An active element with a rectangle handles a pointer-motion event
    as follows: entering ([pos] inside [rect], [mouse_inside] false) calls
    the [menter] handler if bound; being inside calls the [mover] handler if
    bound; leaving ([pos] outside, [mouse_inside] true) calls the [mexit]
    handler if bound; then every universal handler is called.  Afterwards
    [mouse_inside] tells whether [pos] is inside [rect], and no other
    attribute has changed. *)
Theorem handle_event_motion (e : UIElement) (r : Rect) (pos : Z * Z) (tick : option Z) :
  active e = true ->
  rect e = Some r ->
  let event := MOUSEMOTION pos in
  let inside := collidepoint r pos in
  handle_event e event tick =
    Ok (with_mouse_inside inside e,
        (if inside && negb (mouse_inside e) then fire (menter (handlers e)) event else [])
        ++ (if inside then fire (mover (handlers e)) event else [])
        ++ (if negb inside && mouse_inside e then fire (mexit (handlers e)) event else [])
        ++ map (fun uhandler => Call3 uhandler event tick) (uevent (handlers e))) /\
  mouse_inside (with_mouse_inside inside e) = inside.
Proof.
  intros Ha Hr event inside. split; [|reflexivity].
  unfold handle_event. rewrite Ha, Hr. subst inside event. cbn [negb].
  destruct (collidepoint r pos), (mouse_inside e) eqn:Emi; cbn;
    rewrite ?Emi; cbn; rewrite ?app_nil_r, <- ?app_assoc;
    try rewrite <- Emi; rewrite ?with_mouse_inside_same; reflexivity.
Qed.

(** The pointer enters the button: [menter], [mover] and the universal
    handler are called, and [mouse_inside] becomes true. *)
Lemma handle_event_motion_enters :
  handle_event (button_element false) (MOUSEMOTION (20, 20)) (Some 16) =
    Ok (button_element true,
        [Call2 (UserFunction 2) (MOUSEMOTION (20, 20));
         Call2 (UserFunction 1) (MOUSEMOTION (20, 20));
         Call3 (UserFunction 4) (MOUSEMOTION (20, 20)) (Some 16)]).
Proof.
  exact (proj1 (handle_event_motion (button_element false) (mkRect 10 10 100 50)
                  (20, 20) (Some 16) eq_refl eq_refl)).
Defined.

(** *** C9: an inactive element ignores every event *)

(** C9.  When [active] is false, [handle_event] calls no handler and
    leaves the element as it was, whatever the event and the tick. *)
Theorem handle_event_inactive (e : UIElement) (event : Event) (tick : option Z) :
  active e = false ->
  handle_event e event tick = Ok (e, []).
Proof. intros Ha. unfold handle_event. now rewrite Ha. Qed.

Lemma handle_event_inactive_button :
  handle_event (with_active false (button_element true)) (MOUSEMOTION (500, 500)) None =
    Ok (with_active false (button_element true), []).
Proof.
  exact (handle_event_inactive (with_active false (button_element true))
           (MOUSEMOTION (500, 500)) None eq_refl).
Defined.

(** *** C8: looking up a child by name *)

Lemma get_child_of_name_no_children (h : heap) (self : ref) (o : object)
    (e : UIElement) (name : string) :
  h !! self = Some o ->
  as_UIElement o = Some e ->
  children e = [] ->
  get_child_of_name h self name = Ok None.
Proof. intros Ho He Hc. unfold get_child_of_name. now rewrite Ho, He, Hc. Qed.

Lemma get_child_of_name_with_children (h : heap) (self : ref) (o : object)
    (e : UIElement) (name : string) :
  h !! self = Some o ->
  as_UIElement o = Some e ->
  children e <> [] ->
  get_child_of_name h self name = Raise NameError.
Proof.
  intros Ho He Hc. unfold get_child_of_name. rewrite Ho, He.
  now destruct (children e).
Qed.

(** C8 (the code against the specification).  In the nested tree the root
    has one child, whose name is the empty string; no child is called
    ["menu"], and the lookup raises [NameError] where the specification
    expects no value. *)
Theorem get_child_of_name_miss_raises :
  first_child_named nested_tree [2%nat] "menu" = None /\
  get_child_of_name nested_tree 1%nat "menu" = Raise NameError.
Proof. split; vm_compute; reflexivity. Qed.

(** *** C5: [ppm_detected] agrees with [ppm_collide] *)

(** C5.  For two objects that each have a rect and a mask, [ppm_collide]
    and [ppm_detected] both return, and [ppm_detected] is true exactly when
    [ppm_collide] returns a point; the point is the overlap found by the mask
    test, moved by the top left corner of the first object, and when the
    masks do not overlap the results are [None] and false.  This holds
    wherever the rects lie. *)
Theorem ppm_detected_iff_collide `{External} (this other : object)
    (this_rect other_rect : Rect) (this_mask other_mask : Mask) :
  obj_rect this = Ok (Some this_rect) ->
  obj_mask this = Ok (Some this_mask) ->
  obj_rect other = Ok (Some other_rect) ->
  obj_mask other = Ok (Some other_mask) ->
  let overlap :=
    mask_overlap this_mask other_mask
      (left other_rect - left this_rect, top other_rect - top this_rect) in
  exists collision detected,
    ppm_collide this other = Ok collision /\
    ppm_detected this other = Ok detected /\
    (detected = true <-> collision <> None) /\
    collision = option_map (fun p => (fst p + left this_rect, snd p + top this_rect)) overlap /\
    (overlap = None -> collision = None /\ detected = false).
Proof.
  intros Htr Htm Hor Hom overlap.
  assert (Hc : ppm_collide this other =
               Ok (option_map (fun p => (fst p + left this_rect, snd p + top this_rect))
                              overlap)).
  { unfold ppm_collide. rewrite Hor, Htr. cbn. rewrite Htm, Hom. cbn.
    fold overlap. now destruct overlap. }
  eexists _, _. split; [exact Hc|]. split.
  - unfold ppm_detected. rewrite Hc. reflexivity.
  - split; [|split; [reflexivity|]].
    + destruct overlap; simpl; split; congruence.
    + intros ->. now split.
Qed.

(** Two squares that share a pixel collide at that pixel; two squares far
    apart do not collide. *)
Lemma ppm_detected_squares :
  (@ppm_collide plain_external (square_sprite (10, 10)) (square_sprite (11, 11)) = Ok (Some (11, 11)) /\
   @ppm_detected plain_external (square_sprite (10, 10)) (square_sprite (11, 11)) = Ok true) /\
  (@ppm_collide plain_external (square_sprite (10, 10)) (square_sprite (50, 50)) = Ok None /\
   @ppm_detected plain_external (square_sprite (10, 10)) (square_sprite (50, 50)) = Ok false).
Proof.
  split.
  - destruct (@ppm_detected_iff_collide plain_external
                (square_sprite (10, 10)) (square_sprite (11, 11))
                _ _ _ _ eq_refl eq_refl eq_refl eq_refl)
      as (c & d & Hc & Hd & _ & Hpoint & _).
    rewrite Hc, Hd. vm_compute in Hpoint. subst c. split; [reflexivity|].
    vm_compute in Hd. now injection Hd as <-.
  - destruct (@ppm_detected_iff_collide plain_external
                (square_sprite (10, 10)) (square_sprite (50, 50))
                _ _ _ _ eq_refl eq_refl eq_refl eq_refl)
      as (c & d & Hc & Hd & _ & _ & Hnone).
    rewrite Hc, Hd. destruct Hnone as [-> ->]; [vm_compute; reflexivity|].
    split; reflexivity.
Defined.

(** *** C2: [scroll_pos] stays between the top and the bottom *)

Lemma Qlt_bool_lt (a b : Q) : Qlt_bool a b = true -> (a < b)%Q.
Proof.
  unfold Qlt_bool. intros Hb. apply Qnot_le_lt. intros Hle.
  apply Qle_bool_iff in Hle. rewrite Hle in Hb. discriminate.
Qed.









(** *** C10: where [render_priority] ends up *)




(** *** C4: four equal words on a surface for two words per line *)





Lemma pack_word_step `{External} (t : Text) (W : Z) (pos : Q * Q) (sp : Z)
    (len : nat) (st : packing) (line : line_surfs) (j : nat) (word : string) :
  pack_word t W pos sp len (st, line) (j, word) =
  let word_surf := font_render (font t) word (font_args t) in
  let width := inject_Z (get_width word_surf) in
  let height := get_height word_surf in
  let trail := if Z.of_nat j <? Z.of_nat len - 1 then inject_Z sp else 0%Q in
  if Qle_bool (inject_Z W) (cur_x st + (1#2) * width + line_offset line)
  then
    (mkPacking (fst pos + width + inject_Z sp) (cur_y st + inject_Z height)
       (if anchor t =? 1 then n_lines st + 1 else n_lines st)
       (Some height) (render_list st ++ [line]),
     mkLine [(word_surf, (fst pos, (cur_y st + inject_Z height)%Q))]
       (if anchor t =? 1 then 0 - (1#2) * (width + trail) else 0))%Q
  else
    (mkPacking (cur_x st + width + inject_Z sp) (cur_y st) (n_lines st)
       (Some height) (render_list st),
     mkLine (line_words line ++ [(word_surf, (cur_x st, cur_y st))])
       (if anchor t =? 1 then line_offset line - (1#2) * (width + trail)
        else line_offset line))%Q.
Proof. unfold pack_word. cbn zeta. now destruct (Qle_bool _ _). Qed.








(** * Further properties of the module *)

(** *** [clamp_color] *)

Lemma clamp_channel_range (c : Q) :
  (0 <= clamp_channel c)%Q /\ (clamp_channel c <= 255)%Q.
Proof.
  unfold clamp_channel, Qlt_bool.
  destruct (Qle_bool 0 c) eqn:E0; cbn [negb].
  - apply Qle_bool_iff in E0.
    destruct (Qle_bool c 255) eqn:E1; cbn [negb].
    + apply Qle_bool_iff in E1. split; assumption.
    + split; lra.
  - split; lra.
Qed.

Lemma clamp_channel_idempotent (c : Q) :
  clamp_channel (clamp_channel c) = clamp_channel c.
Proof.
  unfold clamp_channel, Qlt_bool.
  destruct (Qle_bool 0 c) eqn:E0; cbn [negb]; [|reflexivity].
  destruct (Qle_bool c 255) eqn:E1; cbn [negb]; [|reflexivity].
  now rewrite E0, E1.
Qed.

Lemma clamp_channel_in_range (c : Q) :
  (0 <= c)%Q -> (c <= 255)%Q -> clamp_channel c = c.
Proof.
  intros H0 H1. unfold clamp_channel, Qlt_bool.
  apply Qle_bool_iff in H0. apply Qle_bool_iff in H1. now rewrite H0, H1.
Qed.

(** X1.  [clamp_color] reads the first three components of its argument
    and ignores the rest; with fewer than three it raises [IndexError].
    Every component of the result lies between 0 and 255, a component that
    already does is returned as it is, and clamping the result again changes
    nothing. *)
Theorem clamp_color_range (rgb : list Q) :
  ((length rgb < 3)%nat -> clamp_color rgb = Raise IndexError) /\
  ((3 <= length rgb)%nat ->
   exists r g b,
     clamp_color rgb = Ok (r, g, b) /\
     clamp_color (firstn 3 rgb) = Ok (r, g, b) /\
     (0 <= r <= 255)%Q /\ (0 <= g <= 255)%Q /\ (0 <= b <= 255)%Q /\
     clamp_color [r; g; b] = Ok (r, g, b) /\
     (Forall (fun c => 0 <= c <= 255)%Q (firstn 3 rgb) -> firstn 3 rgb = [r; g; b])).
Proof.
  split.
  - destruct rgb as [|r [|g [|b rest]]]; simpl; intros; try reflexivity; lia.
  - destruct rgb as [|r [|g [|b rest]]]; simpl; intros; try lia.
    exists (clamp_channel r), (clamp_channel g), (clamp_channel b).
    split_and!; try reflexivity; try apply clamp_channel_range.
    + now rewrite !clamp_channel_idempotent.
    + intros Hin.
      apply Forall_cons in Hin as [[? ?] Hin].
      apply Forall_cons in Hin as [[? ?] Hin].
      apply Forall_cons in Hin as [[? ?] _].
      now rewrite !clamp_channel_in_range.
Qed.

Lemma clamp_color_with_alpha :
  clamp_color [300; -5; 128; 77]%Q = Ok (255, 0, 128)%Q /\
  clamp_color [255; 0; 128]%Q = Ok (255, 0, 128)%Q /\
  clamp_color [300; -5]%Q = Raise IndexError.
Proof.
  destruct (clamp_color_range [300; -5; 128; 77]%Q) as [_ Hlong].
  destruct (clamp_color_range [300; -5]%Q) as [Hshort _].
  destruct Hlong as (r & g & b & Hc & _ & _ & _ & _ & Hagain & _); [simpl; lia|].
  vm_compute in Hc. injection Hc as <- <- <-.
  split; [reflexivity|]. split; [exact Hagain|]. apply Hshort. simpl. lia.
Defined.

(** *** Relative positions *)




(** *** [set_parent] and [unparent] *)

Lemma py_remove_last (x : ref) (l : list ref) :
  ~ In x l -> py_remove x (l ++ [x]) = Some l.
Proof.
  induction l as [|y l IH]; simpl; intros Hnot.
  - now rewrite Nat.eqb_refl.
  - destruct (Nat.eqb x y) eqn:E.
    + apply Nat.eqb_eq in E. subst. tauto.
    + rewrite IH by tauto. reflexivity.
Qed.

Lemma set_children_same (o : object) : set_children (obj_children o) o = o.
Proof. destruct o as [[]|[]|[[]]|[[]]|[[]]|[[]]|[[[]]]]; reflexivity. Qed.

Lemma set_children_twice (cs cs' : list ref) (o : object) :
  set_children cs (set_children cs' o) = set_children cs o.
Proof. destruct o; reflexivity. Qed.

Lemma obj_children_set_children (cs : list ref) (o : object) :
  obj_children (set_children cs o) = cs.
Proof. destruct o; reflexivity. Qed.

Lemma map_base_with_parent_twice (p q : option ref) (o : object) :
  map_base (with_parent p) (map_base (with_parent q) o) = map_base (with_parent p) o.
Proof. destruct o; reflexivity. Qed.

Lemma map_base_with_parent_same (o : object) (e : UIElement) :
  as_UIElement o = Some e ->
  map_base (with_parent (parent e)) o = o.
Proof.
  destruct o as [?|[]|[[]]|[[]]|[[]]|[[]]|[[[]]]]; simpl; intros [= <-]; reflexivity.
Qed.

Lemma as_UIElement_set_children (cs : list ref) (o : object) (e : UIElement) :
  as_UIElement o = Some e ->
  as_UIElement (set_children cs o) = Some (with_children cs e).
Proof. destruct o; simpl; intros [= <-]; reflexivity. Qed.

(** X4.  [set_parent] followed by [unparent] is a round trip.  For an
    element that is not yet among the children of [p], [set_parent] makes
    [p] its parent and appends it to the children of [p]; [unparent] then
    removes it again and clears its parent, so the store is as before except
    that the element has no parent (and exactly as before if it had none); a
    second [unparent] raises [AttributeError]. *)
Theorem set_parent_unparent (h : heap) (self p : ref) (o po : object) (e : UIElement) :
  h !! self = Some o ->
  as_UIElement o = Some e ->
  h !! p = Some po ->
  self <> p ->
  ~ In self (obj_children po) ->
  exists h1 h2,
    set_parent h self p = Ok h1 /\
    parent_at h1 self = Some p /\
    children_at h1 p = obj_children po ++ [self] /\
    unparent h1 self = Returns (Ok h2) /\
    h2 = <[self := map_base (with_parent None) o]> h /\
    (parent e = None -> h2 = h) /\
    unparent h2 self = Returns (Raise AttributeError).
Proof.
  intros Hself He Hp Hne Hnot.
  set (o1 := map_base (with_parent (Some p)) o).
  set (po1 := set_children (obj_children po ++ [self]) po).
  assert (Ho1 : as_UIElement o1 = Some (with_parent (Some p) e))
    by now apply as_UIElement_map_base.
  assert (Hset : set_parent h self p = Ok (<[p := po1]> (<[self := o1]> h))).
  { unfold set_parent. rewrite Hself, He. cbn zeta.
    rewrite lookup_insert_ne, Hp by assumption. reflexivity. }
  assert (Hfinal : <[self := map_base (with_parent None) o1]>
                     (<[p := set_children (obj_children po) po1]>
                        (<[p := po1]> (<[self := o1]> h)))
                   = <[self := map_base (with_parent None) o]> h).
  { subst o1 po1. rewrite set_children_twice, set_children_same.
    rewrite map_base_with_parent_twice, insert_insert_eq.
    rewrite (insert_insert_ne _ p self) by congruence.
    rewrite insert_insert_eq. now rewrite (insert_id h p po Hp). }
  exists (<[p := po1]> (<[self := o1]> h)), (<[self := map_base (with_parent None) o]> h).
  split; [exact Hset|]. split_and!.
  - unfold parent_at. rewrite lookup_insert_ne, lookup_insert_eq, Ho1 by congruence.
    reflexivity.
  - unfold children_at. rewrite lookup_insert_eq. unfold po1.
    apply obj_children_set_children.
  - rewrite <- Hfinal. unfold unparent.
    rewrite lookup_insert_ne, lookup_insert_eq, Ho1 by congruence.
    cbn [parent with_parent]. rewrite lookup_insert_eq.
    unfold po1 at 1. rewrite obj_children_set_children, py_remove_last by assumption.
    cbn zeta. rewrite lookup_insert_ne, lookup_insert_ne, lookup_insert_eq by congruence.
    reflexivity.
  - reflexivity.
  - intros Hnone. apply insert_id.
    rewrite Hself. f_equal. rewrite <- Hnone. symmetry.
    now apply map_base_with_parent_same.
  - unfold unparent. rewrite lookup_insert_eq.
    rewrite (as_UIElement_map_base _ _ _ He). reflexivity.
Qed.

(** The label goes under the first panel and comes off again. *)
Lemma set_parent_unparent_label :
  exists h1,
    set_parent loose_parts 2%nat 0%nat = Ok h1 /\
    children_at h1 0%nat = [2%nat] /\
    unparent h1 2%nat = Returns (Ok loose_parts).
Proof.
  destruct (set_parent_unparent loose_parts 2%nat 0%nat
              (AUIElement (UIElement_init (XYComplex.mk 0 0 0 0) None VNone 1))
              (AUIElement (UIElement_init (XYComplex.mk 0 0 0 0) None VNone 1))
              (UIElement_init (XYComplex.mk 0 0 0 0) None VNone 1))
    as (h1 & h2 & Hset & _ & Hch & Hun & _ & Hsame & _).
  - vm_compute. reflexivity.
  - reflexivity.
  - vm_compute. reflexivity.
  - discriminate.
  - simpl. tauto.
  - exists h1. split; [exact Hset|]. split; [exact Hch|].
    rewrite Hun, Hsame by reflexivity. reflexivity.
Defined.

(** X5.  [set_parent] does not detach: an element that is given a second
    parent stays in the children of the first.  After
    [set_parent(p0)] and [set_parent(p1)] its parent is [p1], and both [p0]
    and [p1] list it. *)
Theorem set_parent_keeps_old_parent (h h1 h2 : heap) (self p0 p1 : ref) :
  set_parent h self p0 = Ok h1 ->
  set_parent h1 self p1 = Ok h2 ->
  p0 <> p1 ->
  p0 <> self ->
  parent_at h2 self = Some p1 /\
  In self (children_at h2 p0) /\
  In self (children_at h2 p1).
Proof.
  unfold set_parent. intros H1 H2 Hne Hne'.
  destruct (h !! self) as [o|] eqn:Eo; [|discriminate].
  destruct (as_UIElement o) as [e|] eqn:Ee; [|discriminate]. cbn zeta in H1.
  destruct (<[self:=map_base (with_parent (Some p0)) o]> h !! p0) as [po|] eqn:Ep0;
    [|discriminate].
  injection H1 as <-.
  rewrite lookup_insert_ne, lookup_insert_eq in H2 by congruence.
  rewrite (as_UIElement_map_base _ _ _ Ee) in H2. cbn zeta in H2.
  match type of H2 with
  | match ?m !! p1 with _ => _ end = _ => destruct (m !! p1) as [po1|] eqn:Ep1
  end; [|discriminate].
  injection H2 as <-.
  assert (Hp0 : children_at
                  (<[p1:=set_children (obj_children po1 ++ [self]) po1]>
                     (<[self:=map_base (with_parent (Some p1))
                                (map_base (with_parent (Some p0)) o)]>
                        (<[p0:=set_children (obj_children po ++ [self]) po]>
                           (<[self:=map_base (with_parent (Some p0)) o]> h)))) p0
                = obj_children po ++ [self]).
  { unfold children_at.
    rewrite lookup_insert_ne, lookup_insert_ne, lookup_insert_eq by congruence.
    apply obj_children_set_children. }
  split_and!.
  - unfold parent_at. destruct (decide (p1 = self)) as [->|Hne1].
    + rewrite lookup_insert_eq.
      rewrite lookup_insert_eq in Ep1. injection Ep1 as <-.
      assert (Hx : as_UIElement (map_base (with_parent (Some self))
                                   (map_base (with_parent (Some p0)) o))
                   = Some (with_parent (Some self) e)).
      { rewrite map_base_with_parent_twice. now apply as_UIElement_map_base. }
      now rewrite (as_UIElement_set_children _ _ _ Hx).
    + rewrite lookup_insert_ne, lookup_insert_eq by congruence.
      rewrite map_base_with_parent_twice.
      now rewrite (as_UIElement_map_base _ _ _ Ee).
  - rewrite Hp0. apply in_or_app. right. now left.
  - unfold children_at. rewrite lookup_insert_eq, obj_children_set_children.
    apply in_or_app. right. now left.
Qed.

(** The label is put under the first panel and then under the second: both
    panels list it. *)
Lemma set_parent_twice_label :
  exists h2,
    (h1 ← set_parent loose_parts 2%nat 0%nat; set_parent h1 2%nat 1%nat) = Ok h2 /\
    parent_at h2 2%nat = Some 1%nat /\
    children_at h2 0%nat = [2%nat] /\
    children_at h2 1%nat = [2%nat].
Proof.
  destruct (set_parent loose_parts 2%nat 0%nat) as [h1| |] eqn:E1;
    [|vm_compute in E1; discriminate..].
  destruct (set_parent h1 2%nat 1%nat) as [h2| |] eqn:E2;
    [|vm_compute in E1; injection E1 as <-; vm_compute in E2; discriminate..].
  destruct (set_parent_keeps_old_parent loose_parts h1 h2 2%nat 0%nat 1%nat E1 E2)
    as (Hpar & _ & _); [discriminate..|].
  exists h2. cbn [mbind result_bind]. split; [exact E2|]. split; [exact Hpar|].
  vm_compute in E1. injection E1 as <-. vm_compute in E2. injection E2 as <-.
  split; vm_compute; reflexivity.
Defined.

(** *** Events *)





(** *** Binding and unbinding *)

Lemma py_pop_last {A : Type} (l : list A) (x : A) :
  py_pop (l ++ [x]) (-1) = Ok (x, l).
Proof.
  unfold py_pop. rewrite length_app. cbn [length].
  replace (-1 <? 0) with true by reflexivity.
  replace (-1 + Z.of_nat (length l + 1)) with (Z.of_nat (length l)) by lia.
  rewrite (proj2 (Z.ltb_ge _ _)) by lia.
  rewrite (proj2 (Z.leb_gt _ _)) by lia.
  cbn [orb]. rewrite Nat2Z.id.
  rewrite nth_error_app2, Nat.sub_diag by lia. cbn [nth_error].
  rewrite firstn_app, Nat.sub_diag, firstn_all. cbn [firstn].
  rewrite skipn_all2 by (rewrite length_app; simpl; lia).
  now rewrite !app_nil_r.
Qed.

Lemma with_handlers_same (e : UIElement) :
  with_handlers
    (mkHandlers (mbd (handlers e)) (mover (handlers e)) (menter (handlers e))
       (mexit (handlers e)) (uevent (handlers e))) e = e.
Proof. destruct e as [? ? ? ? ? ? ? ? ? [] ? ? ?]; reflexivity. Qed.

(** X8.  [bind_u] and [unbind_u()] are a round trip: unbinding with the
    default index -1 returns the handler bound last and leaves the element
    as it was before that [bind_u].  Universal handlers are called in the
    order in which they were bound.  With no universal handler bound,
    [unbind_u] raises [IndexError] for every index. *)
Theorem bind_u_unbind_u (e : UIElement) (f : handler) :
  unbind_u (bind_u f e) (-1) = Ok (f, e) /\
  (forall event tick,
     universal_calls (bind_u f e) event tick
     = universal_calls e event tick ++ [Call3 f event tick]) /\
  (forall index, uevent (handlers e) = [] -> unbind_u e index = Raise IndexError).
Proof.
  split_and!.
  - unfold unbind_u, bind_u. cbn [handlers with_handlers uevent mbd mover menter mexit].
    rewrite py_pop_last. cbn [mbind result_bind].
    do 2 f_equal. destruct e as [? ? ? ? ? ? ? ? ? [] ? ? ?]; reflexivity.
  - intros event tick. unfold universal_calls, bind_u.
    cbn [handlers with_handlers uevent]. now rewrite map_app.
  - intros index Hnone. unfold unbind_u, py_pop. rewrite Hnone. cbn [length Z.of_nat].
    destruct (index <? 0) eqn:E.
    + rewrite Z.add_0_r, E. reflexivity.
    + apply Z.ltb_ge in E. rewrite (proj2 (Z.leb_le _ _)) by lia.
      now rewrite orb_true_r.
Qed.

Lemma unbind_u_fresh_element :
  unbind_u (UIElement_init (XYComplex.mk 0 0 0 0) None VNone 1) (-1) = Raise IndexError.
Proof.
  apply (proj2 (proj2 (bind_u_unbind_u
                         (UIElement_init (XYComplex.mk 0 0 0 0) None VNone 1)
                         (UserFunction 0)))).
  reflexivity.
Defined.

(** X9.  Enter and exit are edges between two pointer positions.  After
    an active element has handled a motion to [p1], a motion to [p2] calls
    the [menter] handler exactly when [p2] is inside [rect] and [p1] was
    not, the [mexit] handler exactly when [p2] is outside and [p1] was
    inside, and the [mover] handler whenever [p2] is inside, whatever
    [mouse_inside] was before the first motion. *)
Theorem handle_event_enter_exit_edges (e e1 : UIElement) (r : Rect)
    (p1 p2 : Z * Z) (tick : option Z) (calls1 : list call) :
  active e = true ->
  rect e = Some r ->
  handle_event e (MOUSEMOTION p1) tick = Ok (e1, calls1) ->
  let event := MOUSEMOTION p2 in
  handle_event e1 event tick =
    Ok (with_mouse_inside (collidepoint r p2) e,
        (if collidepoint r p2 && negb (collidepoint r p1)
         then fire (menter (handlers e)) event else [])
        ++ (if collidepoint r p2 then fire (mover (handlers e)) event else [])
        ++ (if negb (collidepoint r p2) && collidepoint r p1
            then fire (mexit (handlers e)) event else [])
        ++ universal_calls e event tick).
Proof.
  intros Ha Hr H1 event. subst event. unfold universal_calls.
  assert (He1 : e1 = with_mouse_inside (collidepoint r p1) e).
  { unfold handle_event in H1. rewrite Ha, Hr in H1. cbn [negb] in H1.
    destruct (collidepoint r p1), (mouse_inside e) eqn:Emi; cbn in H1;
      rewrite ?Emi in H1; cbn in H1; injection H1 as <- _;
      try reflexivity; rewrite <- Emi; symmetry; apply with_mouse_inside_same. }
  subst e1. unfold handle_event.
  cbn [active with_mouse_inside rect handlers mouse_inside].
  rewrite Ha, Hr. cbn [negb].
  destruct (collidepoint r p2), (collidepoint r p1); cbn;
    rewrite ?app_nil_r, <- ?app_assoc; reflexivity.
Qed.

(** The pointer moves onto the button and then off it: the second motion
    calls the [mexit] handler and the universal one. *)
Lemma handle_event_leaves_button :
  handle_event (button_element true) (MOUSEMOTION (500, 500)) None =
    Ok (button_element false,
        [Call2 (UserFunction 3) (MOUSEMOTION (500, 500));
         Call3 (UserFunction 4) (MOUSEMOTION (500, 500)) None]).
Proof.
  exact (handle_event_enter_exit_edges (button_element false) (button_element true)
           (mkRect 10 10 100 50) (20, 20) (500, 500) None _ eq_refl eq_refl eq_refl).
Defined.

(** *** Scrolling, event by event *)



Lemma Qlt_bool_false (a b : Q) : (b <= a)%Q -> Qlt_bool a b = false.
Proof.
  intros Hle. unfold Qlt_bool. apply Qle_bool_iff in Hle. now rewrite Hle.
Qed.








(** One call keeps [scroll_state] for every property of [scroll_pos] that
    both assignments keep. *)
Lemma scroll_handler_state (P : Q -> Prop) (self p uie : ref) (f : ScrollingFrame)
    (parent_surf : Surface) (h : heap) (event : Event) (tick : option Z) :
  (forall q, P q -> P (q + Qmin (scroll_speed f) (- q))%Q) ->
  (forall q, P q ->
     (viewport_height f parent_surf < XYSimple.yOffset (scroll_limits f))%Q ->
     P (q - Qmin (scroll_speed f)
              (XYSimple.yOffset (scroll_limits f) + q - viewport_height f parent_surf))%Q) ->
  scroll_state P self p f parent_surf h ->
  scroll_state P self p f parent_surf (fst (scroll_handler h self uie event tick)).
Proof.
  intros Hup Hdown Hstate.
  pose proof Hstate as (f' & po & Hself & Hpar & Hsurf & Hp & Hps & Hw & Hl & Hsp & HP).
  assert (Hassign : forall q, P q ->
            scroll_state P self p f parent_surf
              (<[self := AScrollingFrame (with_scroll_pos q f')]> h)).
  { intros q Hq. destruct (decide (self = p)) as [<-|Hne].
    - exists (with_scroll_pos q f'), (AScrollingFrame (with_scroll_pos q f')).
      rewrite Hself in Hp. injection Hp as <-.
      rewrite lookup_insert_eq. split_and!; auto.
    - exists (with_scroll_pos q f'), po.
      rewrite lookup_insert_eq, lookup_insert_ne by assumption. split_and!; auto. }
  unfold scroll_handler. rewrite Hself.
  destruct (mouse_over f'); [|exact Hstate].
  destruct (scrollable f'); [|exact Hstate]. cbn [negb].
  rewrite Hpar, Hp, Hps.
  destruct event as [button pos | pos | type]; try exact Hstate.
  cbn [fst].
  destruct (button =? 4).
  - apply Hassign. rewrite Hsp. now apply Hup.
  - destruct (button =? 5); [|rewrite insert_id by exact Hself; exact Hstate].
    destruct (Qlt_bool _ _) eqn:Elt; [|rewrite insert_id by exact Hself; exact Hstate].
    apply Hassign. rewrite Hsp, Hl. apply Qlt_bool_lt in Elt.
    rewrite Hw, Hl in Elt. rewrite Hw. now apply Hdown.
Qed.

(** X12.  A frame whose window is at least as high as its content does not
    scroll: from [scroll_pos = 0] (with a scroll speed that is not
    negative), [scroll_pos] is still 0 after any sequence of calls of
    [scroll_handler]. *)
Theorem scroll_pos_stays_at_top (h : heap) (self p : ref) (f : ScrollingFrame)
    (po : object) (parent_surf : Surface) (events : list Event) :
  h !! self = Some (AScrollingFrame f) ->
  parent (sf_base f) = Some p ->
  h !! p = Some po ->
  obj_surf po = Some parent_surf ->
  (XYSimple.yOffset (scroll_limits f) <= viewport_height f parent_surf)%Q ->
  (scroll_pos f == 0)%Q ->
  (0 <= scroll_speed f)%Q ->
  exists pos,
    scroll_pos_at (scroll_events h self events) self = Some pos /\ (pos == 0)%Q.
Proof.
  intros Hself Hpar Hp Hps Hfits Hpos Hspeed.
  assert (Hstate : forall h,
            scroll_state (fun q => q == 0)%Q self p f parent_surf h ->
            scroll_state (fun q => q == 0)%Q self p f parent_surf
              (scroll_events h self events)).
  { unfold scroll_events. induction events as [|event events IH]; intros h0 H0;
      simpl; [exact H0|].
    apply IH. apply scroll_handler_state; [| |exact H0].
    - intros q Hq.
      destruct (Q.min_spec (scroll_speed f) (- q)) as [[Hx Hmin] | [Hx Hmin]];
        rewrite Hmin; lra.
    - intros q Hq Hlt. lra. }
  destruct (Hstate h) as (f' & po' & Hself' & _ & _ & _ & _ & _ & _ & _ & Hzero).
  - exists f, po. split_and!; auto.
  - exists (scroll_pos f'). unfold scroll_pos_at. rewrite Hself'. auto.
Qed.

(** The frame of the scrolling scene with 600 pixels of window for its 500
    of content: sixty wheel-downs leave it at 0. *)
Lemma scroll_pos_stays_at_top_600 :
  exists pos,
    scroll_pos_at
      (scroll_events
         (<[1%nat := AScrollingFrame
                       (mkScrollingFrame
                          (with_parent (Some 0%nat) (sf_base hovered_frame))
                          None (XYComplex.mk 0 300 0 600) (XYSimple.mk 300%Q 500%Q)
                          0 10 true true VNone None 4 2 true)]> scrolling_scene)
         1%nat (repeat wheel_down 60)) 1%nat = Some pos /\
    (pos == 0)%Q.
Proof.
  eapply (scroll_pos_stays_at_top _ 1%nat 0%nat _
            (AScene (mkScene true (Some (mkSurface 640 480)) 1 [1%nat]))
            (mkSurface 640 480)).
  - apply lookup_insert_eq.
  - reflexivity.
  - vm_compute. reflexivity.
  - reflexivity.
  - vm_compute. discriminate.
  - reflexivity.
  - vm_compute. discriminate.
Defined.

(** *** The wheel works only under the pointer *)

Lemma with_sf_base_same (f : ScrollingFrame) : with_sf_base (sf_base f) f = f.
Proof. destruct f; reflexivity. Qed.

Lemma with_mouse_over_eq (b : bool) (f : ScrollingFrame) :
  mouse_over f = b -> with_mouse_over b f = f.
Proof. intros <-. destruct f; reflexivity. Qed.

(** The outcome of a motion event, for use below. *)
Lemma handle_event_motion_result (e : UIElement) (r : Rect) (pos : Z * Z)
    (tick : option Z) :
  active e = true ->
  rect e = Some r ->
  handle_event e (MOUSEMOTION pos) tick =
    Ok (with_mouse_inside (collidepoint r pos) e,
        (if collidepoint r pos && negb (mouse_inside e)
         then fire (menter (handlers e)) (MOUSEMOTION pos) else [])
        ++ (if collidepoint r pos then fire (mover (handlers e)) (MOUSEMOTION pos) else [])
        ++ (if negb (collidepoint r pos) && mouse_inside e
            then fire (mexit (handlers e)) (MOUSEMOTION pos) else [])
        ++ map (fun uhandler => Call3 uhandler (MOUSEMOTION pos) tick)
             (uevent (handlers e))).
Proof.
  intros Ha Hr. unfold handle_event. rewrite Ha, Hr. cbn [negb].
  destruct (collidepoint r pos), (mouse_inside e) eqn:Emi; cbn;
    rewrite ?Emi; cbn; rewrite ?app_nil_r, <- ?app_assoc;
    try rewrite <- Emi; rewrite ?with_mouse_inside_same; reflexivity.
Qed.

Lemma scroll_handler_motion (h : heap) (self p uie : ref) (f : ScrollingFrame)
    (po : object) (pos : Z * Z) (tick : option Z) :
  h !! self = Some (AScrollingFrame f) ->
  (mouse_over f = true -> parent (sf_base f) = Some p /\ h !! p = Some po) ->
  scroll_handler h self uie (MOUSEMOTION pos) tick = (h, Ok tt).
Proof.
  intros Hself Hpar. unfold scroll_handler. rewrite Hself.
  destruct (mouse_over f); [|reflexivity].
  destruct (scrollable f); [|reflexivity]. cbn [negb].
  destruct Hpar as [-> ->]; [reflexivity|]. now destruct (obj_surf po).
Qed.

(** X13.  A scrolling frame with the handlers of its constructor follows
    the pointer: after a motion event, [mouse_over] and [mouse_inside] both
    tell whether the position is inside [rect], and [scroll_pos] is
    untouched.  While [mouse_over] is false every mouse-button event, wheel
    included, leaves the store as it is. *)
Theorem frame_follows_pointer (h : heap) (self p : ref) (f : ScrollingFrame)
    (po : object) (r : Rect) :
  h !! self = Some (AScrollingFrame f) ->
  handlers (sf_base f) = frame_handlers ->
  active (sf_base f) = true ->
  rect (sf_base f) = Some r ->
  parent (sf_base f) = Some p ->
  h !! p = Some po ->
  self <> p ->
  mouse_over f = mouse_inside (sf_base f) ->
  (forall pos tick,
     frame_handle_event h self (MOUSEMOTION pos) tick =
       (<[self := AScrollingFrame
                    (with_mouse_over (collidepoint r pos)
                       (with_sf_base
                          (with_mouse_inside (collidepoint r pos) (sf_base f)) f))]> h,
        Ok tt)) /\
  (mouse_over f = false ->
   forall button pos tick,
     frame_handle_event h self (MOUSEBUTTONDOWN button pos) tick = (h, Ok tt)).
Proof.
  intros Hself Hh Ha Hr Hpar Hp Hne Hover. split.
  - intros pos tick. unfold frame_handle_event. rewrite Hself.
    rewrite (handle_event_motion_result _ r pos tick Ha Hr), Hh.
    cbn [frame_handlers menter mover mexit uevent fire map].
    set (b := collidepoint r pos).
    set (f1 := with_sf_base (with_mouse_inside b (sf_base f)) f).
    assert (Hscroll : forall f2,
              mouse_over f2 = false \/ parent (sf_base f2) = Some p ->
              scroll_handler (<[self := AScrollingFrame f2]> h) self self
                (MOUSEMOTION pos) tick
              = (<[self := AScrollingFrame f2]> h, Ok tt)).
    { intros f2 Hf2. apply (scroll_handler_motion _ self p self f2 po).
      - apply lookup_insert_eq.
      - intros Hon. destruct Hf2 as [Hoff | Hp2]; [congruence|].
        split; [exact Hp2|]. now rewrite lookup_insert_ne. }
    destruct b eqn:Eb, (mouse_inside (sf_base f)) eqn:Emi;
      cbn [negb andb app run_calls run_call]; rewrite ?lookup_insert_eq.
    + rewrite Hscroll by (right; exact Hpar).
      now rewrite (with_mouse_over_eq true f1 Hover).
    + rewrite insert_insert_eq, Hscroll by (right; exact Hpar). reflexivity.
    + rewrite insert_insert_eq, Hscroll by (left; reflexivity). reflexivity.
    + rewrite Hscroll by (left; exact Hover).
      now rewrite (with_mouse_over_eq false f1 Hover).
  - intros Hout button pos tick. unfold frame_handle_event. rewrite Hself.
    assert (Hsame : <[self := AScrollingFrame (with_sf_base (sf_base f) f)]> h = h).
    { rewrite with_sf_base_same. now apply insert_id. }
    unfold handle_event. rewrite Ha, Hh.
    cbn [negb frame_handlers mbd uevent fire map app].
    assert (Hrun : run_calls (<[self := AScrollingFrame (with_sf_base (sf_base f) f)]> h)
                     self [Call3 Bound_scroll_handler (MOUSEBUTTONDOWN button pos) tick]
                   = (h, Ok tt)).
    { rewrite Hsame. cbn [run_calls run_call]. unfold scroll_handler.
      rewrite Hself, Hout. reflexivity. }
    destruct (button =? 1); [rewrite Hr; destruct (collidepoint r pos)|];
      cbn [mbind result_bind app]; exact Hrun.
Qed.

(** On the updated frame: a wheel-down before the pointer has come is
    ignored; the pointer comes to (10, 10); the wheel-down then scrolls to
    -10. *)
Lemma frame_follows_pointer_updated :
  frame_handle_event updated_scene 1%nat wheel_down None = (updated_scene, Ok tt) /\
  (let h1 := fst (frame_handle_event updated_scene 1%nat (MOUSEMOTION (10, 10)) None) in
   let h2 := fst (frame_handle_event h1 1%nat wheel_down None) in
   scroll_pos_at h1 1%nat = Some 0%Q /\ scroll_pos_at h2 1%nat = Some (-10)%Q).
Proof.
  destruct (frame_follows_pointer updated_scene 1%nat 0%nat updated_frame
              (AScene (mkScene true (Some (mkSurface 640 480)) 1 [1%nat]))
              (mkRect 0 0 300 100))
    as [Hmotion Hwheel]; try reflexivity; try discriminate.
  split; [apply Hwheel; reflexivity|].
  rewrite Hmotion. split; vm_compute; reflexivity.
Defined.

(** *** Text layout *)

Section text_facts.
Context `{External}.

Lemma pack_word_placed (t : Text) (W : Z) (pos : Q * Q) (sp : Z) (len : nat)
    (st : packing) (line : line_surfs) (j : nat) (word : string) :
  let next := pack_word t W pos sp len (st, line) (j, word) in
  map fst (placed_words (fst next) (snd next))
    = map fst (placed_words st line) ++ [font_render (font t) word (font_args t)] /\
  is_Some (word_h (fst next)) /\
  (length (render_list st) <= length (render_list (fst next))
   <= S (length (render_list st)))%nat.
Proof.
  rewrite pack_word_step. cbn zeta. unfold placed_words.
  destruct (Qle_bool _ _); cbn [fst snd render_list line_words word_h]; split_and!; eauto.
  - rewrite (map_app line_words), concat_app. cbn [map List.concat].
    now rewrite app_nil_r, !map_app.
  - rewrite length_app. simpl. lia.
  - rewrite length_app. simpl. lia.
  - now rewrite app_assoc, !map_app.
Qed.

Lemma pack_words_placed (t : Text) (W : Z) (pos : Q * Q) (sp : Z) (len : nat)
    (jws : list (nat * string)) :
  forall (st : packing) (line : line_surfs),
  let next := fold_left (pack_word t W pos sp len) jws (st, line) in
  map fst (placed_words (fst next) (snd next))
    = map fst (placed_words st line)
      ++ map (fun jw => font_render (font t) (snd jw) (font_args t)) jws /\
  (jws <> [] \/ is_Some (word_h st) -> is_Some (word_h (fst next))) /\
  (length (render_list st) <= length (render_list (fst next))
   <= length (render_list st) + length jws)%nat.
Proof.
  induction jws as [|[j word] jws IH]; intros st line; cbn [fold_left].
  - cbn [map length fst snd]. rewrite app_nil_r. split_and!; auto; try lia.
    intros [Hne | Hs]; [congruence | exact Hs].
  - destruct (pack_word_placed t W pos sp len st line j word) as (Hp & Hh & Hlen).
    destruct (pack_word t W pos sp len (st, line) (j, word)) as [st1 line1] eqn:E.
    cbn [fst snd] in *.
    destruct (IH st1 line1) as (Hp' & Hh' & Hlen'). cbn zeta in *.
    split; [|split].
    + rewrite Hp', Hp. cbn [map snd]. now rewrite <- app_assoc.
    + intros _. apply Hh'. now right.
    + cbn [length]. lia.
Qed.

Lemma enumerate_words (t : Text) (line : list string) :
  map (fun jw => font_render (font t) (snd jw) (font_args t)) (enumerate line)
    = map (fun word => font_render (font t) word (font_args t)) line.
Proof.
  unfold enumerate. generalize 0%nat. induction line as [|w line IH]; intros k.
  - reflexivity.
  - cbn [length seq combine map snd]. now rewrite IH.
Qed.

Lemma enumerate_length {A : Type} (l : list A) : length (enumerate l) = length l.
Proof. unfold enumerate. rewrite length_combine, length_seq. lia. Qed.

(** One source line: the outcome, and what it adds. *)
Lemma pack_line_outcome (t : Text) (W : Z) (pos : Q * Q) (sp : Z)
    (st : packing) (line : list string) :
  (line = [] /\ word_h st = None /\ pack_line t W pos sp st line = Raise NameError) \/
  (exists st',
     pack_line t W pos sp st line = Ok st' /\
     (line <> [] \/ is_Some (word_h st)) /\
     is_Some (word_h st') /\
     map fst (List.concat (map line_words (render_list st')))
       = map fst (List.concat (map line_words (render_list st)))
         ++ map (fun word => font_render (font t) word (font_args t)) line /\
     (S (length (render_list st)) <= length (render_list st')
      <= S (length (render_list st) + length line))%nat).
Proof.
  unfold pack_line.
  destruct (pack_words_placed t W pos sp (length line) (enumerate line) st (mkLine [] 0))
    as (Hp & Hh & Hlen).
  destruct (fold_left _ _ _) as [st1 line1] eqn:E. cbn [fst snd] in *.
  unfold placed_words in Hp. cbn [line_words] in Hp.
  rewrite app_nil_r, enumerate_words in Hp. rewrite enumerate_length in Hlen.
  destruct (word_h st1) as [hh|] eqn:Eh.
  - right. eexists. split; [reflexivity|]. cbn [render_list word_h]. split_and!; eauto.
    + destruct line as [|w line]; [|left; discriminate].
      right. cbn in E. injection E as <- _. eauto.
    + rewrite (map_app line_words), concat_app. cbn [map List.concat].
      now rewrite app_nil_r.
    + rewrite length_app. simpl. lia.
    + rewrite length_app. simpl. lia.
  - left. destruct line as [|w line].
    + cbn in E. injection E as <- _. auto.
    + destruct Hh as [? Hh]; [left; discriminate|]. discriminate.
Qed.
End text_facts.

Section text_outcomes.
Context `{External}.

Lemma pack_fold_raise (t : Text) (W : Z) (pos : Q * Q) (sp : Z)
    (lines : list (list string)) (e : exn) :
  fold_left (fun acc line => st ← acc; pack_line t W pos sp st line) lines (Raise e)
    = Raise e.
Proof. induction lines as [|line lines IH]; [reflexivity|exact IH]. Qed.

Lemma pack_fold_bound (t : Text) (W : Z) (pos : Q * Q) (sp : Z)
    (lines : list (list string)) :
  forall st, is_Some (word_h st) ->
  exists st',
    fold_left (fun acc line => st ← acc; pack_line t W pos sp st line) lines (Ok st)
      = Ok st' /\
    is_Some (word_h st') /\
    map fst (List.concat (map line_words (render_list st')))
      = map fst (List.concat (map line_words (render_list st)))
        ++ map (fun word => font_render (font t) word (font_args t)) (List.concat lines) /\
    (length (render_list st) + length lines <= length (render_list st'))%nat /\
    (length (render_list st')
     <= length (render_list st) + length lines + length (List.concat lines))%nat.
Proof.
  induction lines as [|line lines IH]; intros st Hh; cbn [fold_left].
  - exists st. cbn [List.concat map length]. rewrite app_nil_r. split_and!; auto; lia.
  - cbn [mbind result_bind].
    destruct (pack_line_outcome t W pos sp st line)
      as [(_ & Hnone & _) | (st1 & Hrun & _ & Hh1 & Hw1 & Hlen1)].
    { destruct Hh as [? Hh]. congruence. }
    rewrite Hrun. destruct (IH st1 Hh1) as (st' & Hfold & Hh' & Hw' & Hlo & Hhi).
    exists st'. split; [exact Hfold|]. split; [exact Hh'|]. split_and!.
    + rewrite Hw', Hw1. cbn [List.concat]. now rewrite map_app, app_assoc.
    + cbn [length]. lia.
    + cbn [length List.concat]. rewrite length_app. lia.
Qed.

(** The two outcomes of the packing loops. *)
Lemma pack_lines_outcome (t : Text) (s : Surface) :
  surf (text_base t) = Some s ->
  let lines := map str_split (str_splitlines (_text t)) in
  (exists rest, lines = [] :: rest /\ pack_lines t = Raise NameError) \/
  (exists st,
     (forall rest, lines <> [] :: rest) /\
     pack_lines t = Ok st /\
     map fst (List.concat (map line_words (render_list st)))
       = map (fun word => font_render (font t) word (font_args t)) (words_of t) /\
     (List.concat (map line_words (render_list st)) <> [] -> is_Some (word_h st)) /\
     (length lines <= length (render_list st))%nat /\
     (length (render_list st) <= length lines + length (words_of t))%nat).
Proof.
  intros Hs lines. unfold pack_lines, words_of. rewrite Hs. cbn zeta. fold lines.
  set (pos := if anchor t =? 0 then _ else _).
  set (sp := fst (font_size (font t) " ")).
  set (st0 := mkPacking (fst pos) (snd pos) 0 None []).
  destruct lines as [|first rest]; cbn [fold_left].
  - right. exists st0. split; [discriminate|]. split; [reflexivity|].
    cbn. split_and!; auto; try lia. congruence.
  - cbn [mbind result_bind].
    destruct (pack_line_outcome t (get_width s) pos sp st0 first)
      as [(-> & _ & Hrun) | (st1 & Hrun & Hfirst & Hh1 & Hw1 & Hlen1)].
    + left. exists rest. split; [reflexivity|].
      rewrite Hrun. apply pack_fold_raise.
    + right. rewrite Hrun.
      destruct (pack_fold_bound t (get_width s) pos sp rest st1 Hh1)
        as (st' & Hfold & Hh' & Hw' & Hlo & Hhi).
      exists st'. split.
      { intros rest' [= -> _]. destruct Hfirst as [Hne | [? Hsome]];
          [congruence | discriminate]. }
      split; [exact Hfold|]. cbn [st0 render_list map List.concat length] in *.
      split_and!; auto.
      * rewrite Hw', Hw1. cbn [app]. now rewrite map_app.
      * lia.
      * rewrite length_app. lia.
Qed.

Lemma word_blits_sources (t : Text) (st : packing) (blits : list blit) :
  word_blits t st = Ok blits ->
  map fst blits = map fst (List.concat (map line_words (render_list st))).
Proof.
  unfold word_blits.
  set (placed := List.concat
                   (map (fun line => map (fun w => (line, w)) (line_words line))
                      (render_list st))).
  assert (Hplaced : map (fun lw => fst (snd lw)) placed
                    = map fst (List.concat (map line_words (render_list st)))).
  { subst placed. induction (render_list st) as [|line rl IH]; [reflexivity|].
    cbn [map List.concat]. rewrite !map_app, IH. f_equal.
    rewrite map_map. reflexivity. }
  destruct placed as [|lw placed'] eqn:E.
  - intros [= <-]. now rewrite <- Hplaced.
  - destruct (word_h st) as [h|]; [|discriminate]. intros [= <-].
    assert (HF : forall L : list (line_surfs * (Surface * (Q * Q))),
              map fst
                (map (fun '(line, (word_surf, draw_pos)) =>
                        if anchor t =? 1
                        then (word_surf,
                              (fst draw_pos + line_offset line,
                               snd draw_pos - inject_Z (n_lines st) * inject_Z h / 2))%Q
                        else (word_surf, draw_pos)) L)
              = map (fun lw => fst (snd lw)) L).
    { intros L. rewrite map_map. apply map_ext.
      intros [line [word_surf draw_pos]]. now destruct (anchor t =? 1). }
    exact (eq_trans (HF (lw :: placed')) Hplaced).
Qed.

End text_outcomes.




(** X15.  Wrapping loses no word and repeats none: when [render_text]
    returns, the surfaces it blits onto [text_surf] are the renderings of the
    words of the text, one blit per word, in the order of the text; the new
    [text_surf] has the size of [surf], and nothing else of the element
    changes. *)
Theorem render_text_places_every_word `{External} (t t' : Text) (blits : list blit) :
  wrap t = true ->
  render_text t = Ok (t', blits) ->
  map fst blits = map (fun word => font_render (font t) word (font_args t)) (words_of t) /\
  (exists s, surf (text_base t) = Some s /\
             t' = with_text_surf (Some (mkSurface (get_width s) (get_height s))) t).
Proof.
  intros Hwrap. unfold render_text. rewrite Hwrap.
  destruct (surf (text_base t)) as [s|] eqn:Hs.
  2:{ unfold pack_lines. rewrite Hs. discriminate. }
  destruct (pack_lines_outcome t s Hs)
    as [(rest & _ & Hrun) | (st & _ & Hrun & Hwords & _)];
    rewrite Hrun; [discriminate|]. cbn [mbind result_bind].
  destruct (word_blits t st) as [bl| |] eqn:Hb; try discriminate.
  cbn [mbind result_bind]. intros [= <- <-]. split.
  - rewrite (word_blits_sources t st bl Hb). exact Hwords.
  - eauto.
Qed.

(** The four words on the surface 24 wide are spread over four lines, and
    all four are blitted, in order. *)
Lemma render_text_four_words_blits :
  exists t' blits,
    @render_text plain_external (four_words 24 1) = Ok (t', blits) /\
    map fst blits = repeat (mkSurface 10 12) 4.
Proof.
  destruct (@render_text plain_external (four_words 24 1)) as [[t' blits]| |] eqn:E;
    [|vm_compute in E; discriminate..].
  exists t', blits. split; [reflexivity|].
  destruct (@render_text_places_every_word plain_external (four_words 24 1) t' blits
              eq_refl E) as [Hblits _].
  rewrite Hblits. reflexivity.
Defined.

(** X16.  The packing makes at least one line per line of the text, and
    wrapping adds at most one line per word. *)
Theorem pack_lines_line_count `{External} (t : Text) (st : packing) :
  pack_lines t = Ok st ->
  (length (lines_of t) <= length (render_list st))%nat /\
  (length (render_list st) <= length (lines_of t) + length (words_of t))%nat.
Proof.
  intros Hrun.
  destruct (surf (text_base t)) as [s|] eqn:Hs.
  2:{ unfold pack_lines in Hrun. rewrite Hs in Hrun. discriminate. }
  destruct (pack_lines_outcome t s Hs)
    as [(rest & _ & Hrun') | (st' & _ & Hrun' & _ & _ & Hlo & Hhi)];
    rewrite Hrun' in Hrun; [discriminate|].
  injection Hrun as <-. split; assumption.
Qed.

Lemma pack_lines_four_words_count :
  exists st,
    @pack_lines plain_external (four_words 24 1) = Ok st /\
    (1 <= length (render_list st) <= 5)%nat.
Proof.
  destruct (@pack_lines plain_external (four_words 24 1)) as [st| |] eqn:E;
    [|vm_compute in E; discriminate..].
  exists st. split; [reflexivity|].
  exact (@pack_lines_line_count plain_external (four_words 24 1) st E).
Defined.

(** *** The [text] setter *)

Lemma with__text_fields (value : string) (t : Text) :
  text_base (with__text value t) = text_base t /\
  wrap (with__text value t) = wrap t /\
  text_surf (with__text value t) = text_surf t.
Proof. repeat split. Qed.



(** *** [Screen.render] and [Scene.__init__] *)











(** *** [update_rect] and [update] *)

Lemma position_chain_view (h h' : heap) :
  (forall r, option_map position_view (h' !! r) = option_map position_view (h !! r)) ->
  forall fuel r, position_chain fuel h' r = position_chain fuel h r.
Proof.
  intros Hv. induction fuel as [|fuel IH]; intros r; [reflexivity|].
  cbn [position_chain]. pose proof (Hv r) as Hr.
  destruct (h' !! r) as [o'|], (h !! r) as [o|]; try discriminate; [|reflexivity].
  injection Hr as Hu Hs.
  destruct (as_UIElement o') as [e'|], (as_UIElement o) as [e|];
    try discriminate; [|reflexivity].
  injection Hu as Hrel Hpar. rewrite Hrel, Hpar.
  destruct (parent e) as [p|]; [|reflexivity].
  pose proof (Hv p) as Hp.
  destruct (h' !! p) as [po'|], (h !! p) as [po|]; try discriminate; [|reflexivity].
  injection Hp as _ Hps. rewrite Hps, IH. reflexivity.
Qed.

(** Replacing an object by one with the same position, parent and surface
    changes no absolute position. *)
Lemma calculate_absolute_position_insert (fuel : nat) (h : heap) (self r : ref)
    (o o' : object) :
  h !! self = Some o ->
  position_view o' = position_view o ->
  calculate_absolute_position fuel (<[self := o']> h) r =
    calculate_absolute_position fuel h r.
Proof.
  intros Ho Hv. unfold calculate_absolute_position.
  rewrite (position_chain_view h (<[self := o']> h)); [reflexivity|].
  intros x. destruct (decide (self = x)) as [<-|Hne].
  - rewrite lookup_insert_eq, Ho. simpl. now rewrite Hv.
  - now rewrite lookup_insert_ne.
Qed.

Lemma position_view_with_rect (r : option Rect) (o : object) :
  position_view (map_base (with_rect r) o) = position_view o.
Proof. destruct o; reflexivity. Qed.

Lemma position_view_with_c_surf (s : option Surface) (o : object) :
  position_view (map_base (with_c_surf s) o) = position_view o.
Proof. destruct o; reflexivity. Qed.

(** The outcome of the two assignments of [update_rect], from the position
    in the store before them. *)
Lemma place_rect_outcome (fuel : nat) (h : heap) (self : ref) (o : object) (r : Rect)
    (place : XYSimple.t Z -> Rect -> Rect) :
  h !! self = Some o ->
  place_rect fuel h self o r place =
    match calculate_absolute_position fuel h self with
    | Ok p => (<[self := map_base (with_rect (Some (place p r))) o]> h, Ok tt)
    | Raise x => (<[self := map_base (with_rect (Some r)) o]> h, Raise x)
    | Stuck s => (<[self := map_base (with_rect (Some r)) o]> h, Stuck s)
    end.
Proof.
  intros Ho. unfold place_rect.
  rewrite (calculate_absolute_position_insert fuel h self self o)
    by (assumption || apply position_view_with_rect).
  destruct (calculate_absolute_position fuel h self); [|reflexivity..].
  now rewrite insert_insert_eq.
Qed.

Section update_facts.
Context `{Transform}.

(** [UIElement.update] on an element of a class that inherits it. *)
Lemma UIElement_update_outcome (fuel : nat) (h : heap) (self : ref) (o : object)
    (s : Surface) :
  h !! self = Some o ->
  inherits_update o = true ->
  obj_surf o = Some s ->
  UIElement_update fuel h self =
    match calculate_absolute_position fuel h self with
    | Ok p => (<[self := updated s (set_topleft p (get_rect s)) o]> h, Ok tt)
    | Raise x => (<[self := updated s (get_rect s) o]> h, Raise x)
    | Stuck st => (<[self := updated s (get_rect s) o]> h, Stuck st)
    end.
Proof.
  intros Ho Hin Hs. unfold UIElement_update. rewrite Ho.
  set (o1 := map_base (with_c_surf (Some s)) o).
  assert (Hstep : update_rect fuel (<[self := o1]> h) self =
                  place_rect fuel (<[self := o1]> h) self o1 (get_rect s) set_topleft).
  { unfold update_rect. rewrite lookup_insert_eq.
    destruct o; try discriminate; unfold o1; cbn in Hs |- *; now rewrite Hs. }
  assert (Hbase : match as_UIElement o with
                  | Some e => surf e = Some s
                  | None => False
                  end).
  { destruct o; try discriminate; exact Hs. }
  destruct (as_UIElement o) as [e|]; [|contradiction]. rewrite Hbase. fold o1.
  rewrite Hstep.
  rewrite place_rect_outcome by apply lookup_insert_eq.
  rewrite (calculate_absolute_position_insert fuel h self self o)
    by (assumption || apply position_view_with_c_surf).
  assert (Hup : forall r, map_base (with_rect (Some r)) o1 = updated s r o).
  { intros r. unfold o1, updated. destruct o; reflexivity. }
  destruct (calculate_absolute_position fuel h self);
    now rewrite insert_insert_eq, Hup.
Qed.

(** X20.  [update()] on an element with a surface, of a class that inherits
    [update] and [update_rect] from [UIElement], whose absolute position can
    be computed: it returns; in the store only the element changed, and of it
    only [c_surf], now the surface, and [rect], now the rectangle of the size
    of the surface with its top left corner at the absolute position. *)
Theorem update_places_rect (fuel : nat) (h : heap) (self : ref) (o : object)
    (s : Surface) (p : XYSimple.t Z) :
  h !! self = Some o ->
  inherits_update o = true ->
  obj_surf o = Some s ->
  calculate_absolute_position fuel h self = Ok p ->
  UIElement_update fuel h self =
    (<[self := updated s (mkRect (XYSimple.xOffset p) (XYSimple.yOffset p)
                            (get_width s) (get_height s)) o]> h,
     Ok tt).
Proof.
  intros Ho Hin Hs Hp.
  rewrite (UIElement_update_outcome fuel h self o s) by assumption.
  now rewrite Hp.
Qed.

(** X21.  What a failed [update()] leaves behind, for an element of a class
    that inherits [update] and [update_rect] from [UIElement].  Without a
    surface the assertion fails and the store is as before.  With a surface,
    when the absolute position cannot be computed (no parent, say, or a
    parent without a surface), the exception of
    [calculate_absolute_position] comes out, and the element keeps the
    assignments made before it: [c_surf] is the surface and [rect] is the
    rectangle of the size of the surface at the origin. *)
Theorem update_failure_state (fuel : nat) (h : heap) (self : ref) (o : object) :
  h !! self = Some o ->
  inherits_update o = true ->
  (obj_surf o = None -> UIElement_update fuel h self = (h, Raise AssertionError)) /\
  (forall s x,
     obj_surf o = Some s ->
     calculate_absolute_position fuel h self = Raise x ->
     UIElement_update fuel h self =
       (<[self := updated s (mkRect 0 0 (get_width s) (get_height s)) o]> h, Raise x)).
Proof.
  intros Ho Hin. split.
  - intros Hs. unfold UIElement_update. rewrite Ho.
    destruct o; try discriminate; cbn in Hs |- *; now rewrite Hs.
  - intros s x Hs Hx.
    rewrite (UIElement_update_outcome fuel h self o s) by assumption.
    now rewrite Hx.
Qed.

End update_facts.

(** The root of the nested tree, after [update()], has its rectangle at
    (10, 10). *)
Lemma update_places_rect_nested :
  exists o,
    nested_tree !! 1%nat = Some o /\
    UIElement_update (H := quarter_turns) 2 nested_tree 1%nat =
      (<[1%nat := updated (mkSurface 100 100) (mkRect 10 10 100 100) o]> nested_tree,
       Ok tt).
Proof.
  eexists. split; [vm_compute; reflexivity|].
  exact (update_places_rect (H := quarter_turns) 2 nested_tree 1%nat _
           (mkSurface 100 100) (XYSimple.mk 10 10)
           ltac:(vm_compute; reflexivity) eq_refl eq_refl
           ltac:(vm_compute; reflexivity)).
Defined.

(** An element that was never given a parent: [update()] raises
    [AttributeError] and leaves a rectangle at the origin. *)
Lemma update_failure_orphan :
  UIElement_update (H := quarter_turns) 1 orphan_store 0%nat =
    (<[0%nat := updated (mkSurface 100 50) (mkRect 0 0 100 50)
                  (AUIElement (UIElement_init (XYComplex.mk 0 10 0 10)
                                 (Some (mkSurface 100 50)) VNone 1))]> orphan_store,
     Raise AttributeError).
Proof.
  exact (proj2 (update_failure_state (H := quarter_turns) 1 orphan_store 0%nat _
                  ltac:(vm_compute; reflexivity) eq_refl)
           (mkSurface 100 50) AttributeError eq_refl ltac:(vm_compute; reflexivity)).
Defined.

(** *** [Sprite.update_rect], [Sprite.update] and the collision tests *)

Section sprite_facts.
Context `{Transform}.

(** [Sprite.update] on a sprite with a surface, from the position in the
    store before it. *)
Lemma Sprite_update_outcome (fuel : nat) (h : heap) (self : ref) (sp : Sprite)
    (s : Surface) :
  h !! self = Some (ASprite sp) ->
  surf (img_base (spr_image sp)) = Some s ->
  let r0 := get_rect (transform_rotate s (rot sp)) in
  let placed (place : XYSimple.t Z -> Rect -> Rect) :=
    match calculate_absolute_position fuel h self with
    | Ok p => (<[self := ASprite (updated_sprite s (place p r0) sp)]> h, Ok tt)
    | Raise x => (<[self := updated s r0 (ASprite sp)]> h, Raise x)
    | Stuck st => (<[self := updated s r0 (ASprite sp)]> h, Stuck st)
    end in
  Sprite_update fuel h self =
    if spr_anchor sp =? 0 then placed set_topleft
    else if spr_anchor sp =? 1 then placed set_center
    else (<[self := ASprite (updated_sprite s r0 sp)]> h, Ok tt).
Proof.
  intros Ho Hs r0 placed.
  set (o1 := map_base (with_c_surf (Some s)) (ASprite sp)).
  assert (Hup : UIElement_update fuel h self = update_rect fuel (<[self := o1]> h) self).
  { unfold UIElement_update. rewrite Ho. cbn [as_UIElement]. now rewrite Hs. }
  assert (Hplace : forall place,
            place_rect fuel (<[self := o1]> h) self o1 r0 place =
            match calculate_absolute_position fuel h self with
            | Ok p => (<[self := updated s (place p r0) (ASprite sp)]> h, Ok tt)
            | Raise x => (<[self := updated s r0 (ASprite sp)]> h, Raise x)
            | Stuck st => (<[self := updated s r0 (ASprite sp)]> h, Stuck st)
            end).
  { intros place. rewrite place_rect_outcome by apply lookup_insert_eq.
    rewrite (calculate_absolute_position_insert fuel h self self (ASprite sp))
      by (assumption || apply position_view_with_c_surf).
    destruct (calculate_absolute_position fuel h self);
      now rewrite insert_insert_eq. }
  assert (Hrect : update_rect fuel (<[self := o1]> h) self =
            if spr_anchor sp =? 0 then place_rect fuel (<[self := o1]> h) self o1 r0 set_topleft
            else if spr_anchor sp =? 1
                 then place_rect fuel (<[self := o1]> h) self o1 r0 set_center
                 else (<[self := updated s r0 (ASprite sp)]> h, Ok tt)).
  { unfold update_rect. rewrite lookup_insert_eq. unfold o1 at 1.
    cbn [map_base surf img_base spr_image with_c_surf rot spr_anchor]. rewrite Hs.
    fold r0. destruct (spr_anchor sp =? 0); [reflexivity|].
    destruct (spr_anchor sp =? 1); [reflexivity|].
    now rewrite insert_insert_eq. }
  assert (Hmask : forall r,
            match <[self := updated s r (ASprite sp)]> h !! self with
            | None => (<[self := updated s r (ASprite sp)]> h, Stuck Dangling)
            | Some (ASprite s0) =>
                if has_mask s0 then
                  match surf (img_base (spr_image s0)) with
                  | None => (<[self := updated s r (ASprite sp)]> h, Raise TypeError)
                  | Some sf =>
                      (<[self := ASprite (with_mask (Some (mask_from_surface sf)) s0)]>
                         (<[self := updated s r (ASprite sp)]> h), Ok tt)
                  end
                else (<[self := updated s r (ASprite sp)]> h, Ok tt)
            | Some _ => (<[self := updated s r (ASprite sp)]> h, Raise AttributeError)
            end = (<[self := ASprite (updated_sprite s r sp)]> h, Ok tt)).
  { intros r. rewrite lookup_insert_eq. unfold updated, updated_sprite.
    cbn [map_base has_mask surf img_base spr_image with_rect with_c_surf].
    rewrite Hs. destruct (has_mask sp) eqn:Hm.
    - rewrite insert_insert_eq. reflexivity.
    - destruct sp; reflexivity. }
  unfold Sprite_update. rewrite Hup, Hrect. unfold placed.
  destruct (spr_anchor sp =? 0); [|destruct (spr_anchor sp =? 1)].
  - rewrite Hplace. destruct (calculate_absolute_position fuel h self);
      [apply Hmask|reflexivity..].
  - rewrite Hplace. destruct (calculate_absolute_position fuel h self);
      [apply Hmask|reflexivity..].
  - apply Hmask.
Qed.

(** X22.  [Sprite.update] on a sprite with a surface [s], whose rotated
    surface is [w] wide and [ht] high.  With anchor 0 the rectangle has its
    top left corner at the absolute position, with anchor 1 its centre
    (the corner is half the size before it, rounded down).  With any other
    anchor the position is never computed: the update returns even for a
    sprite without a parent, and the rectangle stays at the origin.  In each
    case [c_surf] is the surface and, for a sprite with a mask, the mask is
    that of the surface before rotation. *)
Theorem Sprite_update_anchor (fuel : nat) (h : heap) (self : ref) (sp : Sprite)
    (s : Surface) :
  h !! self = Some (ASprite sp) ->
  surf (img_base (spr_image sp)) = Some s ->
  let w := get_width (transform_rotate s (rot sp)) in
  let ht := get_height (transform_rotate s (rot sp)) in
  (forall p,
     spr_anchor sp = 0 ->
     calculate_absolute_position fuel h self = Ok p ->
     Sprite_update fuel h self =
       (<[self := ASprite (updated_sprite s
                             (mkRect (XYSimple.xOffset p) (XYSimple.yOffset p) w ht) sp)]> h,
        Ok tt)) /\
  (forall p,
     spr_anchor sp = 1 ->
     calculate_absolute_position fuel h self = Ok p ->
     Sprite_update fuel h self =
       (<[self := ASprite (updated_sprite s
                             (mkRect (XYSimple.xOffset p - w / 2)
                                (XYSimple.yOffset p - ht / 2) w ht) sp)]> h,
        Ok tt)) /\
  (spr_anchor sp <> 0 ->
   spr_anchor sp <> 1 ->
   Sprite_update fuel h self =
     (<[self := ASprite (updated_sprite s (mkRect 0 0 w ht) sp)]> h, Ok tt)).
Proof.
  intros Ho Hs w ht.
  pose proof (Sprite_update_outcome fuel h self sp s Ho Hs) as Hout. cbv zeta in Hout.
  split_and!.
  - intros p Ha Hp. rewrite Hout, Ha, Hp. reflexivity.
  - intros p Ha Hp. rewrite Hout, Ha, Hp. reflexivity.
  - intros H0 H1. rewrite Hout.
    rewrite (proj2 (Z.eqb_neq _ _) H0), (proj2 (Z.eqb_neq _ _) H1). reflexivity.
Qed.

End sprite_facts.

(** The first sprite of the store, anchored by its centre at (10, 10): its
    2x2 rectangle is placed at (9, 9). *)
Lemma Sprite_update_centred :
  exists sp,
    sprite_store !! 1%nat = Some (ASprite sp) /\
    Sprite_update (H := quarter_turns) 2 sprite_store 1%nat =
      (<[1%nat := ASprite (updated_sprite (H := quarter_turns) (mkSurface 2 2)
                             (mkRect 9 9 2 2) sp)]> sprite_store,
       Ok tt).
Proof.
  eexists. split; [vm_compute; reflexivity|].
  exact (proj1 (proj2 (Sprite_update_anchor (H := quarter_turns) 2 sprite_store 1%nat _
                         (mkSurface 2 2) ltac:(vm_compute; reflexivity) eq_refl))
           (XYSimple.mk 10 10) eq_refl ltac:(vm_compute; reflexivity)).
Defined.

Section collision_facts.
Context `{External} `{Transform}.

(** A completed [Sprite.update] changed the sprite only, and left it with a
    rectangle and, if it has a mask at all, with the mask of its surface. *)
Lemma Sprite_update_ready (fuel : nat) (h h' : heap) (self : ref) (sp : Sprite) :
  h !! self = Some (ASprite sp) ->
  Sprite_update fuel h self = (h', Ok tt) ->
  exists s r,
    surf (img_base (spr_image sp)) = Some s /\
    h' = <[self := ASprite (updated_sprite s r sp)]> h.
Proof.
  intros Ho Hrun. destruct (surf (img_base (spr_image sp))) as [s|] eqn:Hs.
  - pose proof (Sprite_update_outcome fuel h self sp s Ho Hs) as Hout.
    cbv zeta in Hout. rewrite Hrun in Hout. exists s.
    destruct (spr_anchor sp =? 0); [|destruct (spr_anchor sp =? 1)];
      try (destruct (calculate_absolute_position fuel h self);
           [|discriminate Hout..]);
      injection Hout as ->; eauto.
  - unfold Sprite_update, UIElement_update in Hrun. rewrite Ho in Hrun.
    cbn [as_UIElement] in Hrun. rewrite Hs in Hrun. discriminate Hrun.
Qed.

(** X23.  Two sprites as their constructor returns them cannot be tested
    for collision: [rect] is still [None], and both [ppm_collide] and
    [ppm_detected] raise [AttributeError], whatever the arguments of the
    constructors were. *)
Theorem ppm_collide_before_update
    (pos1 pos2 : XYComplex.t) (path1 path2 : string + Surface)
    (anchor1 anchor2 priority1 priority2 : Z) (mask1 mask2 : bool) (a b : Sprite) :
  Sprite_init pos1 path1 anchor1 priority1 mask1 = Ok a ->
  Sprite_init pos2 path2 anchor2 priority2 mask2 = Ok b ->
  ppm_collide (ASprite a) (ASprite b) = Raise AttributeError /\
  ppm_detected (ASprite a) (ASprite b) = Raise AttributeError.
Proof.
  intros Ha Hb.
  assert (Hrect : forall pos path anchor prio m sp,
            Sprite_init pos path anchor prio m = Ok sp ->
            rect (img_base (spr_image sp)) = None).
  { intros pos path anchor prio m sp. unfold Sprite_init, Image_init.
    destruct path as [file|sf]; [destruct (image_load file)|];
      cbn; try discriminate; now intros [= <-]. }
  assert (Hc : ppm_collide (ASprite a) (ASprite b) = Raise AttributeError).
  { unfold ppm_collide, obj_rect. cbn [as_UIElement mbind result_bind].
    now rewrite (Hrect _ _ _ _ _ _ Hb). }
  split; [exact Hc|]. unfold ppm_detected. now rewrite Hc.
Qed.

(** X24.  After [update()] of both, two sprites of the store can be tested
    when both were constructed with a mask: [ppm_collide] returns, and
    [ppm_detected] returns whether it found a point.  If one of them was
    constructed without a mask, both functions still raise
    [AttributeError]. *)
Theorem ppm_collide_after_update (fuel : nat) (h h1 h2 : heap) (r1 r2 : ref)
    (a b : Sprite) :
  h !! r1 = Some (ASprite a) ->
  h !! r2 = Some (ASprite b) ->
  r1 <> r2 ->
  Sprite_update fuel h r1 = (h1, Ok tt) ->
  Sprite_update fuel h1 r2 = (h2, Ok tt) ->
  exists a' b',
    h2 !! r1 = Some (ASprite a') /\
    h2 !! r2 = Some (ASprite b') /\
    (has_mask a = true -> has_mask b = true ->
     exists collision,
       ppm_collide (ASprite a') (ASprite b') = Ok collision /\
       ppm_detected (ASprite a') (ASprite b') = Ok (bool_of_point collision)) /\
    (has_mask a = false \/ has_mask b = false ->
     ppm_collide (ASprite a') (ASprite b') = Raise AttributeError /\
     ppm_detected (ASprite a') (ASprite b') = Raise AttributeError).
Proof.
  intros Ha Hb Hne Hrun1 Hrun2.
  destruct (Sprite_update_ready fuel h h1 r1 a Ha Hrun1) as (sa & ra & Hsa & ->).
  assert (Hb1 : <[r1 := ASprite (updated_sprite sa ra a)]> h !! r2 = Some (ASprite b))
    by now rewrite lookup_insert_ne.
  destruct (Sprite_update_ready fuel _ h2 r2 b Hb1 Hrun2) as (sb & rb & Hsb & ->).
  exists (updated_sprite sa ra a), (updated_sprite sb rb b).
  split_and!.
  - rewrite lookup_insert_ne by congruence. apply lookup_insert_eq.
  - apply lookup_insert_eq.
  - intros Hma Hmb.
    assert (Hc : exists collision,
              ppm_collide (ASprite (updated_sprite sa ra a))
                (ASprite (updated_sprite sb rb b)) = Ok collision).
    { unfold ppm_collide, obj_rect, obj_mask, updated_sprite.
      cbn [as_UIElement mbind result_bind spr_image img_base rect with_rect has_mask mask].
      rewrite Hma, Hmb. cbn [mbind result_bind].
      destruct (mask_overlap _ _ _); eauto. }
    destruct Hc as [collision Hc]. exists collision. split; [exact Hc|].
    unfold ppm_detected. now rewrite Hc.
  - intros Hm.
    assert (Hc : ppm_collide (ASprite (updated_sprite sa ra a))
                   (ASprite (updated_sprite sb rb b)) = Raise AttributeError).
    { unfold ppm_collide, obj_rect, obj_mask, updated_sprite.
      cbn [as_UIElement mbind result_bind spr_image img_base rect with_rect has_mask mask].
      destruct (has_mask a) eqn:Hma; [|reflexivity].
      destruct Hm as [Hm|Hm]; [discriminate|]. now rewrite Hm. }
    split; [exact Hc|]. unfold ppm_detected. now rewrite Hc.
Qed.

Lemma obj_rect_moved (d : Z * Z) (o : object) :
  obj_rect (moved d o) =
    r ← obj_rect o;
    Ok (option_map (fun r => mkRect (left r + fst d) (top r + snd d) (width r) (height r)) r).
Proof. destruct o; reflexivity. Qed.

Lemma obj_mask_moved (d : Z * Z) (o : object) : obj_mask (moved d o) = obj_mask o.
Proof. destruct o; reflexivity. Qed.

(** X25.  The collision tests depend on where the two objects are relative
    to each other only: with both rectangles moved by the same [d],
    [ppm_collide] fails in the same way or returns the same point moved by
    [d], and [ppm_detected] returns the same. *)
Theorem ppm_collide_translation (d : Z * Z) (this other : object) :
  ppm_collide (moved d this) (moved d other) = moved_point d (ppm_collide this other) /\
  ppm_detected (moved d this) (moved d other) = ppm_detected this other.
Proof.
  assert (Hc : ppm_collide (moved d this) (moved d other) =
               moved_point d (ppm_collide this other)).
  { unfold ppm_collide, moved_point. rewrite !obj_rect_moved, !obj_mask_moved.
    destruct (obj_rect other) as [[ro|]| |]; try reflexivity.
    destruct (obj_rect this) as [[rt|]| |]; try reflexivity.
    cbn [mbind result_bind option_map topleft fst snd left top].
    destruct (obj_mask this) as [[mt|]| |]; try reflexivity.
    destruct (obj_mask other) as [[mo|]| |]; try reflexivity.
    cbn [mbind result_bind].
    replace (left ro + fst d - (left rt + fst d)) with (left ro - left rt) by lia.
    replace (top ro + snd d - (top rt + snd d)) with (top ro - top rt) by lia.
    destruct (mask_overlap mt mo _) as [p|]; [|reflexivity].
    cbn [mbind result_bind option_map fst snd]. do 3 f_equal; lia. }
  split; [exact Hc|]. unfold ppm_detected. rewrite Hc. unfold moved_point.
  destruct (ppm_collide this other) as [[p|]| |]; reflexivity.
Qed.

End collision_facts.

(** Two sprites loaded from surfaces. *)
Lemma ppm_collide_fresh_sprites :
  exists a b,
    Sprite_init (H := plain_external) (XYComplex.mk 0 10 0 10) (inr (mkSurface 2 2)) 1 1 true
      = Ok a /\
    Sprite_init (H := plain_external) (XYComplex.mk 0 11 0 11) (inr (mkSurface 2 2)) 1 1 true
      = Ok b /\
    ppm_collide (H := plain_external) (ASprite a) (ASprite b) = Raise AttributeError /\
    ppm_detected (H := plain_external) (ASprite a) (ASprite b) = Raise AttributeError.
Proof.
  eexists _, _. split; [reflexivity|]. split; [reflexivity|].
  exact (ppm_collide_before_update (H := plain_external)
           (XYComplex.mk 0 10 0 10) (XYComplex.mk 0 11 0 11)
           (inr (mkSurface 2 2)) (inr (mkSurface 2 2)) 1 1 1 1 true true _ _
           eq_refl eq_refl).
Defined.

(** The two sprites of the store, after [update()] of both: their
    rectangles are at (9, 9) and (10, 10), and they meet at (10, 10). *)
Lemma ppm_collide_updated_sprites :
  exists h1 h2 a' b',
    Sprite_update (H := quarter_turns) 2 sprite_store 1%nat = (h1, Ok tt) /\
    Sprite_update (H := quarter_turns) 2 h1 2%nat = (h2, Ok tt) /\
    h2 !! 1%nat = Some (ASprite a') /\
    h2 !! 2%nat = Some (ASprite b') /\
    ppm_collide (H := plain_external) (ASprite a') (ASprite b') = Ok (Some (10, 10)) /\
    ppm_detected (H := plain_external) (ASprite a') (ASprite b') = Ok true.
Proof.
  set (h1 := fst (Sprite_update (H := quarter_turns) 2 sprite_store 1%nat)).
  set (h2 := fst (Sprite_update (H := quarter_turns) 2 h1 2%nat)).
  destruct (ppm_collide_after_update (H := plain_external) (H0 := quarter_turns)
              2 sprite_store h1 h2 1%nat 2%nat _ _
              ltac:(vm_compute; reflexivity) ltac:(vm_compute; reflexivity)
              ltac:(discriminate)
              ltac:(vm_compute; reflexivity) ltac:(vm_compute; reflexivity))
    as (a' & b' & Ha' & Hb' & Hcol & _).
  destruct (Hcol eq_refl eq_refl) as (collision & Hc & Hd).
  exists h1, h2, a', b'.
  split; [vm_compute; reflexivity|]. split; [vm_compute; reflexivity|].
  split; [exact Ha'|]. split; [exact Hb'|].
  vm_compute in Ha', Hb'. injection Ha' as <-. injection Hb' as <-.
  split; vm_compute; reflexivity.
Defined.

(** *** [UIElement.draw], [UIElement.draw_seq] *)



Section draw_facts.
Context `{Transform}.



End draw_facts.


